(** * Async generators over concurrent requests: a timed model

    The repository contrasts three ways of driving a list of asynchronous
    operations from an async generator:
    - one after another ([sequential_gen], [sequential_http_gen]),
    - all at once, yielding in completion order through
      [asyncio.as_completed] ([concurrent_gen], [concurrent_http_gen]),
    - in fixed-size batches, each batch drained before the next one starts
      ([batch_http_gen]).

    The model is a discrete-event one.  The clock of the event loop is a
    natural number of milliseconds.  A coroutine is a function from the
    instant it starts to the instant it settles and what it settles with.
    An async generator is a state transformer on a frame holding the clock,
    what the consumer still wants, the values yielded so far and the
    operations started so far.  The HTTP client and the iteration order of
    the set that [as_completed] builds are parameters of the environment. *)

From Stdlib Require Import ZArith Lia.
From stdpp Require Import base tactics option list sorting gmap strings pretty.

Open Scope Z_scope.
Open Scope nat_scope.

(** ** Python values *)

Module Py.

Inductive value : Type :=
| VNone
| VBool (b : bool)
| VInt (n : Z)
| VStr (s : string).

(** An instance of [Exception], the class that [except Exception] catches:
    its class name and [str(e)].  Signals of the interpreter that derive
    from [BaseException] alone (a keyboard interrupt, the exit of the
    process, the cancellation of a task) are not results of an operation
    and are not values of this type. *)
Record Exception : Type := { exc_class : string; exc_str : string }.

Inductive outcome (A : Type) : Type :=
| Returns (a : A)
| Raises (e : Exception).
Arguments Returns {A} a.
Arguments Raises {A} e.

Definition ValueError (msg : string) : Exception :=
  {| exc_class := "ValueError"; exc_str := msg |}.

(** [len(range(start, stop, step))] for a non-zero step, computed as the
    interpreter does: from the distance and the step, rounding up. *)
Definition range_length (start stop step : Z) : nat :=
  if (0 <? step)%Z then
    if (start <? stop)%Z then Z.to_nat ((stop - start - 1) / step + 1) else 0
  else if (step <? 0)%Z then
    if (stop <? start)%Z then Z.to_nat ((start - stop - 1) / (- step) + 1) else 0
  else 0.

Definition range_items (start stop step : Z) : list Z :=
  (λ k : nat, (start + Z.of_nat k * step)%Z) <$> seq 0 (range_length start stop step).

(** [range(start, stop, step)]: a zero step is a [ValueError]. *)
Definition range (start stop step : Z) : outcome (list Z) :=
  if (step =? 0)%Z then Raises (ValueError "range() arg 3 must not be zero")
  else Returns (range_items start stop step).

(** A slice bound: negative bounds count from the end, and every bound is
    clamped to the list. *)
Definition slice_bound (len x : Z) : Z :=
  if (x <? 0)%Z then Z.max 0 (x + len) else Z.min x len.

(** [l[i:j]] *)
Definition slice {A : Type} (l : list A) (i j : Z) : list A :=
  let len := Z.of_nat (length l) in
  let lo := slice_bound len i in
  let hi := slice_bound len j in
  take (Z.to_nat (hi - lo)) (drop (Z.to_nat lo) l).

(** [enumerate(l)] *)
Definition enumerate {A : Type} (l : list A) : list (nat * A) :=
  imap (λ i x, (i, x)) l.

End Py.

Abbreviation dict := (gmap string Py.value).

(** ** The event loop *)

Module Asyncio.
Import Py.

(** Instants and durations, in milliseconds. *)
Definition time : Type := nat.

(** A coroutine started at an instant settles at a later instant, with a
    value or with an exception. *)
Definition Coro (A : Type) : Type := time → time * outcome A.

Definition ret {A : Type} (a : A) : Coro A := λ t, (t, Returns a).

Definition bind {A B : Type} (c : Coro A) (k : A → Coro B) : Coro B :=
  λ t, match c t with
       | (t', Returns a) => k a t'
       | (t', Raises e) => (t', Raises e)
       end.

(** [await asyncio.sleep(d)] *)
Definition sleep (d : time) : Coro unit := λ t, (t + d, Returns tt).

(** [try: body  except Exception as e: handler(e)] *)
Definition try_except {A : Type} (body : Coro A) (handler : Exception → Coro A) : Coro A :=
  λ t, match body t with
       | (t', Returns a) => (t', Returns a)
       | (t', Raises e) => handler e t'
       end.

(** An operation the generator has started: which input item it serves
    (a ghost label, the position of the item in the input), when it was
    started and when it settles. *)
Record Op : Type := { op_item : nat; op_launch : time; op_settle : time }.

(** A task: an operation together with what it settles with. *)
Record Task (A : Type) : Type := { task_op : Op; task_result : outcome A }.
Arguments task_op {A} _.
Arguments task_result {A} _.

(** A value handed to the consumer: when, for which item, and the value. *)
Record Event (Y : Type) : Type := { ev_time : time; ev_item : nat; ev_value : Y }.
Arguments Build_Event {Y} _ _ _.
Arguments ev_time {Y} _.
Arguments ev_item {Y} _.
Arguments ev_value {Y} _.

(** The state of a running generator.  [demand] is how many values the
    consumer will still take before it leaves the loop; [None] is a
    consumer that iterates to the end. *)
Record Frame (Y : Type) : Type :=
  { now : time; demand : option nat; emitted : list (Event Y); ops : list Op }.
Arguments Build_Frame {Y} _ _ _ _.
Arguments now {Y} _.
Arguments demand {Y} _.
Arguments emitted {Y} _.
Arguments ops {Y} _.

(** Why a generator stops before its body ends: an exception leaves it, or
    the consumer left it suspended at a [yield]. *)
Inductive signal : Type :=
| Raise (e : Exception)
| Suspend.

Inductive flow (X : Type) : Type :=
| Go (x : X)
| Halt (s : signal).
Arguments Go {X} x.
Arguments Halt {X} s.

Definition Gen (Y X : Type) : Type := Frame Y → flow X * Frame Y.

Definition gret {Y X : Type} (x : X) : Gen Y X := λ f, (Go x, f).

Definition gbind {Y X X' : Type} (g : Gen Y X) (k : X → Gen Y X') : Gen Y X' :=
  λ f, match g f with
       | (Go x, f') => k x f'
       | (Halt s, f') => (Halt s, f')
       end.

(** What an expression evaluates to inside the generator body. *)
Definition eval {Y X : Type} (r : outcome X) : Gen Y X :=
  λ f, match r with
       | Returns x => (Go x, f)
       | Raises e => (Halt (Raise e), f)
       end.

(** [for x in l: body(x)] *)
Fixpoint for_each {Y A : Type} (l : list A) (body : A → Gen Y unit) : Gen Y unit :=
  match l with
  | [] => gret tt
  | x :: l' => gbind (body x) (λ _, for_each l' body)
  end.

(** [yield v]: the value reaches the consumer at the current instant.  A
    consumer that wanted only this one value leaves, and the generator
    stays suspended at the [yield]. *)
Definition yield_ {Y : Type} (item : nat) (v : Y) : Gen Y unit :=
  λ f,
    let out := emitted f ++ [Build_Event (now f) item v] in
    match demand f with
    | None => (Go tt, Build_Frame (now f) None out (ops f))
    | Some (S (S k)) => (Go tt, Build_Frame (now f) (Some (S k)) out (ops f))
    | Some _ => (Halt Suspend, Build_Frame (now f) (Some 0) out (ops f))
    end.

(** [await c] in the body of the generator, for item [item]: the coroutine
    runs from the current instant and the generator resumes when it
    settles. *)
Definition await {Y A : Type} (item : nat) (c : Coro A) : Gen Y A :=
  λ f,
    let '(t', r) := c (now f) in
    let f' := Build_Frame t' (demand f) (emitted f)
                (ops f ++ [{| op_item := item; op_launch := now f; op_settle := t' |}]) in
    match r with
    | Returns a => (Go a, f')
    | Raises e => (Halt (Raise e), f')
    end.

(** The iteration order of the set of tasks that [as_completed] builds is
    not specified; an event loop fixes it by ranking the items.  Tasks
    that settle at the same instant complete in that order. *)
Record EventLoop : Type := { set_rank : nat → nat }.

(** The task made from a coroutine when the loop first runs it. *)
Definition create_task {A : Type} (t0 : time) (ic : nat * Coro A) : Task A :=
  let '(t', r) := ic.2 t0 in
  {| task_op := {| op_item := ic.1; op_launch := t0; op_settle := t' |};
     task_result := r |}.

Definition settles_first {A : Type} (loop : EventLoop) (x y : Task A) : bool :=
  (op_settle (task_op x) <? op_settle (task_op y))
  || ((op_settle (task_op x) =? op_settle (task_op y))
      && (set_rank loop (op_item (task_op x)) <=? set_rank loop (op_item (task_op y)))).

(** The queue of finished tasks, kept in the order in which they finish. *)
Fixpoint enqueue_done {A : Type} (loop : EventLoop) (x : Task A) (q : list (Task A))
  : list (Task A) :=
  match q with
  | [] => [x]
  | y :: q' => if settles_first loop x y then x :: y :: q'
               else y :: enqueue_done loop x q'
  end.

Definition completion_order {A : Type} (loop : EventLoop) (tasks : list (Task A))
  : list (Task A) :=
  foldr (enqueue_done loop) [] tasks.

(** [asyncio.as_completed(coros)]: every coroutine becomes a task started
    at the current instant; the iterator hands the tasks out in the order
    in which they finish. *)
Definition as_completed {Y A : Type} (loop : EventLoop) (coros : list (nat * Coro A))
  : Gen Y (list (Task A)) :=
  λ f,
    let tasks := create_task (now f) <$> coros in
    (Go (completion_order loop tasks),
     Build_Frame (now f) (demand f) (emitted f) (ops f ++ (task_op <$> tasks))).

(** [await task] for the next task handed out by [as_completed]: the
    generator resumes when that task has settled, with its result or with
    the exception it raised. *)
Definition await_task {Y A : Type} (tk : Task A) : Gen Y A :=
  λ f,
    let f' := Build_Frame (now f `max` op_settle (task_op tk)) (demand f) (emitted f) (ops f) in
    match task_result tk with
    | Returns a => (Go a, f')
    | Raises e => (Halt (Raise e), f')
    end.

(** A consumer arrives at instant [t0] and takes [pulls] values ([None]:
    iterates to the end).  The body of an async generator does not run
    before the first value is asked for. *)
Definition start {Y : Type} (t0 : time) (pulls : option nat) : Frame Y :=
  Build_Frame t0 pulls [] [].

Definition consume {Y : Type} (pulls : option nat) (g : Gen Y unit) (t0 : time)
  : flow unit * Frame Y :=
  match pulls with
  | Some 0 => (Halt Suspend, start t0 (Some 0))
  | _ => g (start t0 pulls)
  end.

(** The operations running at instant [t]: started, not yet settled. *)
Definition running (t : time) (o : Op) : bool :=
  (op_launch o <=? t) && (t <? op_settle o).

Definition in_flight (os : list Op) (t : time) : nat :=
  length (filter (λ o, running t o = true) os).

End Asyncio.

Import Py Asyncio.

Declare Scope coro_scope.
Delimit Scope coro_scope with coro.
Bind Scope coro_scope with Coro.
Notation "x ← c ; k" := (bind c (λ x, k))
  (at level 20, c at level 100, k at level 200, only parsing, right associativity) : coro_scope.
Notation "c ;; k" := (bind c (λ _, k))
  (at level 100, k at level 200, only parsing, right associativity) : coro_scope.

Declare Scope gen_scope.
Delimit Scope gen_scope with gen.
Bind Scope gen_scope with Gen.
Notation "x ← g ; k" := (gbind g (λ x, k))
  (at level 20, g at level 100, k at level 200, only parsing, right associativity) : gen_scope.
Notation "g ;; k" := (gbind g (λ _, k))
  (at level 100, k at level 200, only parsing, right associativity) : gen_scope.

(** ** The HTTP client

    The client is outside the repository.  A request for a URL, with a
    timeout, issued at an instant, takes some time and then returns a
    response or raises. *)

Record Response : Type := { status_code : Z; text : string }.

Record AsyncClient : Type :=
  { client_get : string → time → time → time * outcome Response }.

(** [await client.get(url, timeout=...)] *)
Definition http_get (client : AsyncClient) (url : string) (timeout : time) : Coro Response :=
  λ t, let '(d, r) := client_get client url timeout t in (t + d, r).

(** The timeout given to every request, [timeout=10.0]. *)
Definition request_timeout : time := 10 * 1000.

(** ** async generator.py *)

Definition slow_task (i : Z) : Coro string :=
  (sleep 100 ;;
   ret ("Task " +:+ pretty i +:+ " done"))%coro.

Definition sequential_gen (n : Z) : Gen string unit :=
  for_each (range_items 0 n 1) (λ i,
    result ← await (Z.to_nat i) (slow_task i);
    yield_ (Z.to_nat i) result)%gen.

Definition concurrent_gen (loop : EventLoop) (n : Z) : Gen string unit :=
  (let tasks := (λ i, (Z.to_nat i, slow_task i)) <$> range_items 0 n 1 in
   done ← as_completed loop tasks;
   for_each done (λ task,
     result ← await_task task;
     yield_ (op_item (task_op task)) result))%gen.

(** ** integrated_async_demo.py *)

Definition fetch_url (client : AsyncClient) (url : string) (delay : time) : Coro dict :=
  ((if delay is 0 then ret tt else sleep delay) ;;
   try_except
     (response ← http_get client url request_timeout;
      ret ({[ "url" := VStr url;
              "status" := VInt (status_code response);
              "length" := VInt (Z.of_nat (String.length (text response)));
              "success" := VBool true ]} : dict))
     (λ e,
      ret ({[ "url" := VStr url;
              "status" := VNone;
              "length" := VInt 0;
              "success" := VBool false;
              "error" := VStr (exc_str e) ]} : dict)))%coro.

Definition sequential_http_gen (client : AsyncClient) (urls : list string) : Gen dict unit :=
  for_each (enumerate urls) (λ '(i, url),
    let delay := 100 * (i mod 3) in
    result ← await i (fetch_url client url delay);
    yield_ i result)%gen.

Definition concurrent_http_gen (loop : EventLoop) (client : AsyncClient) (urls : list string)
  : Gen dict unit :=
  (let tasks := (λ '(i, url), let delay := 100 * (i mod 3) in
                              (i, fetch_url client url delay)) <$> enumerate urls in
   done ← as_completed loop tasks;
   for_each done (λ task,
     result ← await_task task;
     yield_ (op_item (task_op task)) result))%gen.

Definition batch_http_gen (loop : EventLoop) (client : AsyncClient) (urls : list string)
    (batch_size : Z) : Gen dict unit :=
  (starts ← eval (range 0 (Z.of_nat (length urls)) batch_size);
   for_each starts (λ i,
     let batch := slice urls i (i + batch_size) in
     let tasks := imap (λ k url, (Z.to_nat i + k, fetch_url client url 50)) batch in
     done ← as_completed loop tasks;
     for_each done (λ task,
       result ← await_task task;
       yield_ (op_item (task_op task)) result)))%gen.

(** The line [demonstrate_patterns] prints for each result it receives:
    [status = "✅" if result["success"] else "❌"] and then
    [f"  {status} {result['url']} -> {result['status']} ({result['length']} bytes)"].
    A subscript on a missing key raises [KeyError]. *)
Definition KeyError (key : string) : Exception :=
  {| exc_class := "KeyError"; exc_str := "'" +:+ key +:+ "'" |}.

Definition getitem (d : dict) (key : string) : outcome value :=
  match d !! key with
  | Some v => Returns v
  | None => Raises (KeyError key)
  end.

(** The truth value of a Python value. *)
Definition truthy (v : value) : bool :=
  match v with
  | VNone => false
  | VBool b => b
  | VInt n => negb (n =? 0)%Z
  | VStr s => negb (String.eqb s "")
  end.

(** A value as an f-string prints it. *)
Definition format_value (v : value) : string :=
  match v with
  | VNone => "None"
  | VBool true => "True"
  | VBool false => "False"
  | VInt n => pretty n
  | VStr s => s
  end.

Definition and_then {A B : Type} (r : outcome A) (k : A → outcome B) : outcome B :=
  match r with
  | Returns a => k a
  | Raises e => Raises e
  end.

Definition report_line (result : dict) : outcome string :=
  and_then (getitem result "success") (λ success,
  let status := if truthy success then "✅" else "❌" in
  and_then (getitem result "url") (λ url,
  and_then (getitem result "status") (λ code,
  and_then (getitem result "length") (λ size,
  Returns ("  " +:+ status +:+ " " +:+ format_value url +:+ " -> " +:+ format_value code
           +:+ " (" +:+ format_value size +:+ " bytes)"))))).

(** [count_async] of [simple_generator_demo]. *)
Definition count_async (n : Z) : Gen string unit :=
  for_each (range_items 0 n 1) (λ i,
    _ ← await (Z.to_nat i) (sleep 100);
    yield_ (Z.to_nat i) ("Count: " +:+ pretty (i + 1)%Z))%gen.

(** ** Derived notions used in the statements *)

(** What the request made for a URL by [fetch_url], started at [t0] with a
    delay, comes back with. *)
Definition request_of (client : AsyncClient) (t0 delay : time) (url : string)
  : outcome Response :=
  (client_get client url request_timeout (t0 + delay)).2.

(** The dictionary [fetch_url] builds from what its request comes back
    with. *)
Definition reply_dict (url : string) (r : outcome Response) : dict :=
  match r with
  | Returns response =>
      {[ "url" := VStr url;
         "status" := VInt (status_code response);
         "length" := VInt (Z.of_nat (String.length (text response)));
         "success" := VBool true ]}
  | Raises e =>
      {[ "url" := VStr url;
         "status" := VNone;
         "length" := VInt 0;
         "success" := VBool false;
         "error" := VStr (exc_str e) ]}
  end.

(** The events of a loop that awaits the tasks of a completion queue in
    turn and yields each result, from instant [t] on. *)
Fixpoint hand_out {Y : Type} (t : time) (done : list (Task Y)) : list (Event Y) :=
  match done with
  | [] => []
  | tk :: rest =>
      let t' := t `max` op_settle (task_op tk) in
      match task_result tk with
      | Returns v => Build_Event t' (op_item (task_op tk)) v :: hand_out t' rest
      | Raises _ => []
      end
  end.

(** The clock once every task of the queue has been awaited. *)
Definition clock_after {Y : Type} (t : time) (done : list (Task Y)) : time :=
  foldl (λ t tk, t `max` op_settle (task_op tk)) t done.

(** The task that a call [fetch_url(client, url, delay)] for an item becomes
    when it is started at [t0]. *)
Definition fetch_task (client : AsyncClient) (t0 : time) (item : nat) (url : string)
    (delay : time) : Task dict :=
  {| task_op := {| op_item := item; op_launch := t0;
                   op_settle := t0 + delay
                                + (client_get client url request_timeout (t0 + delay)).1 |};
     task_result := Returns (reply_dict url (request_of client t0 delay url)) |}.

(** Calls of [fetch_url] for consecutive items, from item [base] on, the
    delay of each depending on the item, all started at [t0]. *)
Definition fetch_tasks (client : AsyncClient) (t0 : time) (base : nat)
    (delay : nat → time) (urls : list string) : list (Task dict) :=
  imap (λ j url, fetch_task client t0 (base + j) url (delay (base + j))) urls.

(** The tasks of [concurrent_http_gen], of one batch of [batch_http_gen], and
    of [concurrent_gen], started at [t0]. *)
Definition concurrent_tasks (client : AsyncClient) (t0 : time) (urls : list string)
  : list (Task dict) :=
  create_task t0 <$> ((λ '(i, url), (i, fetch_url client url (100 * (i mod 3))))
                        <$> enumerate urls).

Definition batch_tasks (client : AsyncClient) (t0 : time) (urls : list string)
    (batch_size i : Z) : list (Task dict) :=
  create_task t0 <$> imap (λ k url, (Z.to_nat i + k, fetch_url client url 50))
                       (slice urls i (i + batch_size)).

Definition slow_tasks (t0 : time) (n : Z) : list (Task string) :=
  create_task t0 <$> ((λ i, (Z.to_nat i, slow_task i)) <$> range_items 0 n 1).

(** What identifies an event, and the task it comes from: the item and the
    result. *)
Definition event_stamp {Y : Type} (e : Event Y) : nat * outcome Y :=
  (ev_item e, Returns (ev_value e)).

Definition task_stamp {Y : Type} (tk : Task Y) : nat * outcome Y :=
  (op_item (task_op tk), task_result tk).

(** What the consumer can tell an outcome by: the item and the URL the
    dictionary carries. *)
Definition stamp_identity (s : nat * outcome dict) : nat * option value :=
  (s.1, match s.2 with Returns d => d !! "url" | Raises _ => None end).

Definition identity_of (e : Event dict) : nat * option value :=
  (ev_item e, ev_value e !! "url").

(** The identities of the input items. *)
Definition identities (urls : list string) : list (nat * option value) :=
  (λ '(i, url), (i, Some (VStr url))) <$> enumerate urls.

(** What holds of a run of [batch_http_gen] with batch size [b] begun at
    [t0], after [k] batches: [ts] are the tasks started so far. *)
Record batch_inv (client : AsyncClient) (urls : list string) (b : nat) (t0 : time)
    (k : nat) (f : Frame dict) (ts : list (Task dict)) : Prop :=
  { bi_demand : demand f = None;
    bi_ops : ops f = task_op <$> ts;
    bi_stamps : event_stamp <$> emitted f ≡ₚ task_stamp <$> ts;
    bi_count : length ts = (k * b) `min` length urls;
    bi_tasks : ∀ j tk, ts !! j = Some tk →
                 ∃ url t, urls !! j = Some url ∧ tk = fetch_task client t j url 50;
    bi_clock : t0 ≤ now f;
    bi_begin : k = 0 → now f = t0;
    bi_settled : Forall (λ tk, op_settle (task_op tk) ≤ now f) ts;
    bi_yielded : Forall (λ e, ev_time e ≤ now f) (emitted f);
    bi_first : ∀ tk, tk ∈ ts → op_item (task_op tk) < b → op_launch (task_op tk) = t0;
    bi_barrier : ∀ x y, x ∈ ts → y ∈ ts →
                   op_item (task_op x) / b < op_item (task_op y) / b →
                   op_settle (task_op x) ≤ op_launch (task_op y);
    bi_yield_barrier : ∀ e y, e ∈ emitted f → y ∈ ts →
                         ev_item e / b < op_item (task_op y) / b →
                         ev_time e ≤ op_launch (task_op y);
    bi_order : ∀ p q e1 e2, emitted f !! p = Some e1 → emitted f !! q = Some e2 →
                 ev_item e1 / b < ev_item e2 / b → p < q;
    bi_window : ∀ t, in_flight (ops f) t ≤ b }.

(** A task that settles no later than another. *)
Definition settles_by {Y : Type} (x y : Task Y) : Prop :=
  op_settle (task_op x) ≤ op_settle (task_op y).

(** A task that settles with a value. *)
Definition returns {Y : Type} (tk : Task Y) : Prop :=
  ∃ v, task_result tk = Returns v.

(** The loop of the concurrent generators over a completion queue. *)
Definition drain {Y : Type} (done : list (Task Y)) : Gen Y unit :=
  for_each done (λ task,
    result ← await_task task;
    yield_ (op_item (task_op task)) result)%gen.

(** The loop the concurrent generators share:
    [for task in asyncio.as_completed(tasks): result = await task; yield result]. *)
Definition yield_as_completed {Y : Type} (loop : EventLoop) (coros : list (nat * Coro Y))
  : Gen Y unit :=
  (done ← as_completed loop coros; drain done)%gen.

(** Sliding-window admission, read off a log of operations: whenever an
    operation settles while some item has not been started yet, an operation
    is started at that very instant. *)
Definition refills_on_completion (os : list Op) : Prop :=
  ∀ o o', o ∈ os → o' ∈ os → op_settle o < op_launch o' →
          ∃ o'', o'' ∈ os ∧ op_launch o'' = op_settle o.

(** The batch an item belongs to. *)
Definition batch_of (batch_size : Z) (item : nat) : nat := item / Z.to_nat batch_size.

(** The loop of the sequential generators: await the call for an item,
    yield what it returned, go on to the next item. *)
Definition relay {Y : Type} (calls : list (nat * Coro Y)) : Gen Y unit :=
  for_each calls (λ ic,
    result ← await ic.1 ic.2;
    yield_ ic.1 result)%gen.

(** The tasks of such a loop begun at [t]: each call starts when the one
    before it has settled. *)
Fixpoint relay_log {Y : Type} (t : time) (calls : list (nat * Coro Y)) : list (Task Y) :=
  match calls with
  | [] => []
  | ic :: rest =>
      let tk := create_task t ic in
      tk :: relay_log (op_settle (task_op tk)) rest
  end.

(** The events of tasks whose results are yielded as they settle. *)
Fixpoint on_settle {Y : Type} (tasks : list (Task Y)) : list (Event Y) :=
  match tasks with
  | [] => []
  | tk :: rest =>
      match task_result tk with
      | Returns v =>
          Build_Event (op_settle (task_op tk)) (op_item (task_op tk)) v :: on_settle rest
      | Raises _ => []
      end
  end.

(** The instant the last of the tasks settles, [t] when there is none. *)
Definition last_settle {Y : Type} (t : time) (tasks : list (Task Y)) : time :=
  foldl (λ _ tk, op_settle (task_op tk)) t tasks.

(** Operations in a chain from [t]: the first starts at [t], each next one
    starts the instant the one before it settles, and none settles before
    it starts. *)
Fixpoint chained (t : time) (os : list Op) : Prop :=
  match os with
  | [] => True
  | o :: rest => op_launch o = t ∧ t ≤ op_settle o ∧ chained (op_settle o) rest
  end.

(** A coroutine that does not settle before it starts. *)
Definition forward {Y : Type} (c : Coro Y) : Prop := ∀ t, t ≤ (c t).1.

(** The calls of the sequential generators. *)
Definition sequential_calls (client : AsyncClient) (urls : list string)
  : list (nat * Coro dict) :=
  (λ '(i, url), (i, fetch_url client url (100 * (i mod 3)))) <$> enumerate urls.

Definition slow_calls (n : Z) : list (nat * Coro string) :=
  (λ i, (Z.to_nat i, slow_task i)) <$> range_items 0 n 1.

Definition count_calls (n : Z) : list (nat * Coro string) :=
  (λ i, (Z.to_nat i, (sleep 100 ;; ret ("Count: " +:+ pretty (i + 1)%Z))%coro))
    <$> range_items 0 n 1.

(** The task of item [j] in a loop begun at [t] whose calls each take [d]
    and return [v j]. *)
Definition ticking_task {Y : Type} (t d : time) (v : nat → Y) (j : nat) : Task Y :=
  {| task_op := {| op_item := j; op_launch := t + d * j; op_settle := t + d * (j + 1) |};
     task_result := Returns (v j) |}.

(** A frame with another demand. *)
Definition with_demand {Y : Type} (d : option nat) (f : Frame Y) : Frame Y :=
  Build_Frame (now f) d (emitted f) (ops f).

(** A generator is lazy when a consumer that wants [k + 1] more values sees
    what a consumer iterating to the end sees, up to the value it leaves
    at: either the run is the same, having yielded at most [k] values, or
    it is suspended after the first [k + 1] of the values of the full run,
    having started only operations that the full run starts too. *)
Definition lazy {Y X : Type} (g : Gen Y X) : Prop :=
  ∀ (f : Frame Y) (k : nat), demand f = None →
    ∃ r f1 es os,
      g f = (r, f1) ∧ demand f1 = None
      ∧ emitted f1 = emitted f ++ es ∧ ops f1 = ops f ++ os
      ∧ ((g (with_demand (Some (S k)) f) = (r, with_demand (Some (S k - length es)) f1)
          ∧ length es ≤ k)
         ∨ (∃ f1', g (with_demand (Some (S k)) f) = (Halt Suspend, f1')
                   ∧ emitted f1' = emitted f ++ take (S k) es
                   ∧ S k ≤ length es
                   ∧ ops f `prefix_of` ops f1'
                   ∧ ops f1' `prefix_of` ops f1)).

(** A consumer that takes [k] values of a generator and leaves has received
    the first [k] values of the full run (all of them when there are fewer),
    and the operations started for it are started by the full run too, in
    the same order. *)
Definition served_prefix {Y : Type} (k : nat) (t0 : time) (g : Gen Y unit) : Prop :=
  emitted (consume (Some k) g t0).2 = take k (emitted (consume None g t0).2)
  ∧ ops (consume (Some k) g t0).2 `prefix_of` ops (consume None g t0).2.

(** A client whose latency for a URL does not depend on when it is asked. *)
Definition steady (client : AsyncClient) : Prop :=
  ∀ url timeout t t', (client_get client url timeout t).1 = (client_get client url timeout t').1.

(** A client whose requests all return a response. *)
Definition reliable (client : AsyncClient) : Prop :=
  ∀ url timeout t, ∃ response, (client_get client url timeout t).2 = Returns response.

(** ** Sample environments *)

Definition fifo_loop : EventLoop := {| set_rank := λ i, i |}.
Definition lifo_loop : EventLoop := {| set_rank := λ i, 100 - i |}.

Definition page (body : string) : outcome Response :=
  Returns {| status_code := 200; text := body |}.

Definition refused : outcome Response :=
  Raises {| exc_class := "ConnectError"; exc_str := "connection refused" |}.

(** A client whose answer depends on the URL only. *)
Definition sample_client : AsyncClient :=
  {| client_get := λ url _ _,
       if String.eqb url "A" then (300, page "aaa")
       else if String.eqb url "B" then (0, page "bb")
       else if String.eqb url "C" then (0, page "c")
       else if String.eqb url "slow" then (300, page "zzz")
       else if String.eqb url "down" then (5, refused)
       else (10, page "ok") |}.

(** A client that answers at once. *)
Definition instant_client : AsyncClient :=
  {| client_get := λ _ _ _, (0, page "ok") |}.

(** * Facts *)

(** ** Python lists and ranges *)

Section python_facts.
Context {A : Type}.
Implicit Types (l : list A).

Lemma enumerate_length l : length (enumerate l) = length l.
Proof. apply length_imap. Qed.

Lemma enumerate_lookup l i : enumerate l !! i = (λ x, (i, x)) <$> l !! i.
Proof. apply list_lookup_imap. Qed.

Lemma enumerate_fst l : (enumerate l).*1 = seq 0 (length l).
Proof.
  unfold enumerate. rewrite fmap_imap.
  rewrite (imap_ext _ (λ i _, i)) by done.
  by rewrite imap_seq_0, list_fmap_id.
Qed.

Lemma enumerate_snd l : (enumerate l).*2 = l.
Proof.
  unfold enumerate. rewrite fmap_imap.
  rewrite (imap_ext _ (λ _ x, x)) by done.
  induction l as [|x l IH]; [done|]. rewrite imap_cons. f_equal. apply IH.
Qed.

(** A slice between two bounds inside the list. *)
Lemma slice_inside l (i j : nat) :
  slice l (Z.of_nat i) (Z.of_nat j) = take (j `min` length l - i `min` length l) (drop (i `min` length l) l).
Proof.
  unfold slice, slice_bound.
  destruct (Z.ltb_spec (Z.of_nat i) 0); [lia|].
  destruct (Z.ltb_spec (Z.of_nat j) 0); [lia|].
  f_equal; [|f_equal]; lia.
Qed.

End python_facts.

Section range_facts.

Lemma range_length_lt (n step : Z) (k : nat) :
  (0 < step)%Z → k < range_length 0 n step ↔ (Z.of_nat k * step < n)%Z.
Proof.
  intros Hs. unfold range_length.
  destruct (Z.ltb_spec 0 step); [|lia].
  destruct (Z.ltb_spec 0 n) as [Hn|Hn]; [|split; [lia|nia]].
  rewrite Z.sub_0_r.
  assert (0 <= (n - 1) / step)%Z by (apply Z.div_pos; lia).
  split; intros Hk.
  - assert (Z.of_nat k <= (n - 1) / step)%Z as Hle by lia.
    pose proof (Z.mul_div_le (n - 1) step Hs). nia.
  - assert (Z.of_nat k <= (n - 1) / step)%Z; [|lia].
    apply Z.div_le_lower_bound; lia.
Qed.

Lemma range_items_lookup (n step : Z) (k : nat) (i : Z) :
  (0 < step)%Z →
  range_items 0 n step !! k = Some i ↔ i = (Z.of_nat k * step)%Z ∧ (Z.of_nat k * step < n)%Z.
Proof.
  intros Hs. unfold range_items. rewrite list_lookup_fmap, fmap_Some.
  setoid_rewrite lookup_seq. rewrite <- range_length_lt by done.
  split; [intros (?&[-> ?]&->); split; [lia|done] | intros [-> ?]; eexists; split; [done|lia]].
Qed.

Lemma range_items_length (n step : Z) :
  length (range_items 0 n step) = range_length 0 n step.
Proof. unfold range_items. by rewrite length_fmap, length_seq. Qed.

Lemma range_items_negative (n : nat) (step : Z) :
  (step < 0)%Z → range_items 0 (Z.of_nat n) step = [].
Proof.
  intros Hs. unfold range_items, range_length.
  destruct (Z.ltb_spec 0 step); [lia|].
  destruct (Z.ltb_spec step 0); [|lia].
  destruct (Z.ltb_spec (Z.of_nat n) 0); [lia|done].
Qed.

(** [range(n)] counts from 0 to [n - 1]. *)
Lemma range_items_unit (n : Z) :
  range_items 0 n 1 = Z.of_nat <$> seq 0 (Z.to_nat n).
Proof.
  unfold range_items, range_length. simpl.
  destruct (Z.ltb_spec 0 n).
  - rewrite Z.div_1_r. replace (Z.to_nat (n - 0 - 1 + 1)) with (Z.to_nat n) by lia.
    apply list_fmap_ext. intros; lia.
  - by replace (Z.to_nat n) with 0 by lia.
Qed.

End range_facts.

(** The batches of [batch_http_gen]: the slice taken at every start. *)
Section batches.
Context {A : Type}.
Implicit Types (l : list A).

Lemma batch_slice l (b k : nat) :
  0 < b → k * b < length l →
  slice l (Z.of_nat (k * b)) (Z.of_nat (k * b) + Z.of_nat b) = take b (drop (k * b) l).
Proof.
  intros Hb Hk. replace (Z.of_nat (k * b) + Z.of_nat b)%Z with (Z.of_nat (k * b + b)) by lia.
  rewrite slice_inside. rewrite (Nat.min_l (k * b)) by lia.
  destruct (decide (k * b + b ≤ length l)).
  - f_equal. lia.
  - rewrite !take_ge; [done| |]; rewrite length_drop; lia.
Qed.

Lemma batches_take l (b m : nat) :
  concat ((λ k, take b (drop (k * b) l)) <$> seq 0 m) = take (m * b) l.
Proof.
  induction m as [|m IH]; [done|].
  rewrite seq_S, fmap_app, concat_app, IH. simpl. rewrite app_nil_r.
  rewrite take_take_drop. f_equal. lia.
Qed.

End batches.

(** ** Coroutines *)

Section coroutines.
Context (client : AsyncClient).

(** [fetch_url] waits for its delay, makes one request, and settles when
    the request does, with the dictionary made from the reply. *)
Lemma fetch_url_run (url : string) (delay t0 : time) :
  fetch_url client url delay t0 =
    (t0 + delay + (client_get client url request_timeout (t0 + delay)).1,
     Returns (reply_dict url (request_of client t0 delay url))).
Proof.
  unfold fetch_url, request_of, bind, try_except, http_get, ret, sleep.
  destruct delay as [|d].
  - rewrite !Nat.add_0_r.
    by destruct (client_get client url request_timeout t0) as [lat [resp|e]].
  - by destruct (client_get client url request_timeout (t0 + S d)) as [lat [resp|e]].
Qed.

Lemma slow_task_run (i : Z) (t0 : time) :
  slow_task i t0 = (t0 + 100, Returns ("Task " +:+ pretty i +:+ " done")).
Proof. done. Qed.

(** The task the loop makes from a call of [fetch_url]. *)
Lemma create_fetch_task (item : nat) (url : string) (delay t0 : time) :
  create_task t0 (item, fetch_url client url delay) =
    {| task_op := {| op_item := item; op_launch := t0;
                     op_settle := t0 + delay
                                  + (client_get client url request_timeout (t0 + delay)).1 |};
       task_result := Returns (reply_dict url (request_of client t0 delay url)) |}.
Proof. unfold create_task. simpl. by rewrite fetch_url_run. Qed.

End coroutines.

(** ** The completion queue *)

Section completion.
Context {A : Type} (loop : EventLoop).
Implicit Types (x : Task A) (q tasks : list (Task A)).

Lemma enqueue_done_perm x q : enqueue_done loop x q ≡ₚ x :: q.
Proof.
  induction q as [|y q IH]; simpl; [done|].
  destruct (settles_first loop x y); [done|].
  by rewrite IH, Permutation_swap.
Qed.

Lemma completion_order_perm tasks : completion_order loop tasks ≡ₚ tasks.
Proof.
  induction tasks as [|x tasks IH]; simpl; [done|].
  by rewrite enqueue_done_perm, IH.
Qed.

Lemma settles_first_true x y : settles_first loop x y = true → settles_by x y.
Proof.
  unfold settles_first, settles_by. intros H.
  apply orb_true_iff in H as [H|H]; [apply Nat.ltb_lt in H; lia|].
  apply andb_true_iff in H as [H _]. apply Nat.eqb_eq in H. lia.
Qed.

Lemma settles_first_false x y : settles_first loop x y = false → settles_by y x.
Proof.
  unfold settles_first, settles_by. intros H.
  apply orb_false_iff in H as [H _]. apply Nat.ltb_ge in H. lia.
Qed.

Lemma enqueue_done_sorted x q :
  StronglySorted settles_by q → StronglySorted settles_by (enqueue_done loop x q).
Proof.
  induction 1 as [|y q Hq IH Hy]; simpl; [repeat constructor|].
  destruct (settles_first loop x y) eqn:Hxy.
  - apply settles_first_true in Hxy.
    constructor; [by constructor|]. constructor; [done|].
    eapply Forall_impl; [exact Hy|]. unfold settles_by in *. intros; lia.
  - apply settles_first_false in Hxy. constructor; [done|].
    rewrite enqueue_done_perm. by constructor.
Qed.

Lemma completion_order_sorted tasks :
  StronglySorted settles_by (completion_order loop tasks).
Proof.
  induction tasks as [|x tasks IH]; simpl; [constructor|].
  by apply enqueue_done_sorted.
Qed.

(** In the queue, a task handed out earlier settles no later. *)
Lemma sorted_lookup q i j x y :
  StronglySorted settles_by q → q !! i = Some x → q !! j = Some y → i < j →
  settles_by x y.
Proof.
  intros Hq. revert i j. induction Hq as [|z q Hq IH Hz]; intros i j Hi Hj Hij; [done|].
  destruct j as [|j]; [lia|]. simpl in Hj.
  destruct i as [|i]; simpl in Hi.
  - simplify_eq. rewrite Forall_forall in Hz. apply Hz. by eapply list_elem_of_lookup_2.
  - eapply IH; [done..|lia].
Qed.

Lemma completion_order_length tasks : length (completion_order loop tasks) = length tasks.
Proof. by rewrite completion_order_perm. Qed.

Lemma completion_order_returns tasks :
  Forall returns tasks → Forall returns (completion_order loop tasks).
Proof. by rewrite completion_order_perm. Qed.

End completion.

(** ** Draining a completion queue *)

Section draining.
Context {Y : Type}.
Implicit Types (done : list (Task Y)) (f : Frame Y) (t : time).

Lemma clock_after_cons t (tk : Task Y) done :
  clock_after t (tk :: done) = clock_after (t `max` op_settle (task_op tk)) done.
Proof. done. Qed.

Lemma clock_after_ge t done : t ≤ clock_after t done.
Proof.
  revert t. induction done as [|tk done IH]; intros t; [done|].
  rewrite clock_after_cons. specialize (IH (t `max` op_settle (task_op tk))). lia.
Qed.

Lemma clock_after_settled t done :
  Forall (λ tk, op_settle (task_op tk) ≤ clock_after t done) done.
Proof.
  revert t. induction done as [|tk done IH]; intros t; [done|].
  rewrite clock_after_cons. constructor; [|apply IH].
  pose proof (clock_after_ge (t `max` op_settle (task_op tk)) done). lia.
Qed.

(** One turn of the loop: await the next task, yield what it returned. *)
Lemma drain_cons (tk : Task Y) done f v :
  task_result tk = Returns v →
  drain (tk :: done) f =
    let t' := now f `max` op_settle (task_op tk) in
    let out := emitted f ++ [Build_Event t' (op_item (task_op tk)) v] in
    match demand f with
    | None => drain done (Build_Frame t' None out (ops f))
    | Some (S (S k)) => drain done (Build_Frame t' (Some (S k)) out (ops f))
    | Some _ => (Halt Suspend, Build_Frame t' (Some 0) out (ops f))
    end.
Proof.
  intros Hv. unfold drain. simpl for_each. unfold gbind at 1 2, await_task, yield_.
  rewrite Hv. simpl. by destruct (demand f) as [[|[|k]]|].
Qed.

Lemma drain_nil f : drain [] f = (Go tt, f).
Proof. done. Qed.

(** A consumer that iterates to the end receives every result of the
    queue, in the order of the queue. *)
Lemma drain_all done f :
  Forall returns done → demand f = None →
  drain done f =
    (Go tt, Build_Frame (clock_after (now f) done) None
              (emitted f ++ hand_out (now f) done) (ops f)).
Proof.
  intros Hret. revert f. induction Hret as [|tk done [v Hv] _ IH]; intros f Hd.
  - rewrite drain_nil. destruct f; simpl in *; subst. by rewrite app_nil_r.
  - rewrite (drain_cons _ _ _ v Hv), Hd. simpl. rewrite IH by done. simpl.
    by rewrite Hv, <- app_assoc.
Qed.

(** A consumer that takes [k + 1] values and leaves: if the queue holds
    more than [k] tasks the generator is left suspended after the first
    [k + 1] results. *)
Lemma drain_abandoned done f k :
  Forall returns done → demand f = Some (S k) → k < length done →
  drain done f =
    (Halt Suspend,
     Build_Frame (clock_after (now f) (take (S k) done)) (Some 0)
       (emitted f ++ take (S k) (hand_out (now f) done)) (ops f)).
Proof.
  intros Hret. revert f k. induction Hret as [|tk done [v Hv] _ IH]; intros f k Hd Hk.
  - simpl in Hk. lia.
  - rewrite (drain_cons _ _ _ v Hv), Hd. simpl. rewrite Hv. destruct k as [|k]; simpl.
    + by rewrite take_0.
    + simpl in Hk. rewrite (IH _ k); [|done|simpl; lia]. simpl.
      by rewrite <- app_assoc.
Qed.

(** A consumer that wants more values than the queue holds receives them
    all and goes on. *)
Lemma drain_exhausted done f k :
  Forall returns done → demand f = Some (S k) → length done ≤ k →
  drain done f =
    (Go tt, Build_Frame (clock_after (now f) done) (Some (S k - length done))
              (emitted f ++ hand_out (now f) done) (ops f)).
Proof.
  intros Hret. revert f k. induction Hret as [|tk done [v Hv] _ IH]; intros f k Hd Hk.
  - rewrite drain_nil. destruct f; simpl in *; subst. by rewrite app_nil_r.
  - rewrite (drain_cons _ _ _ v Hv), Hd. simpl in Hk. destruct k as [|k]; [lia|].
    simpl. rewrite (IH _ k); [|done|simpl; lia]. simpl.
    by rewrite Hv, <- app_assoc.
Qed.

(** Every event handed out stands for the task at the same place of the
    queue: same item, the value the task returned, at an instant when the
    task has settled. *)
Lemma hand_out_spec t done :
  Forall returns done →
  Forall2 (λ e tk, ev_item e = op_item (task_op tk)
                   ∧ task_result tk = Returns (ev_value e)
                   ∧ t ≤ ev_time e
                   ∧ op_settle (task_op tk) ≤ ev_time e
                   ∧ ev_time e ≤ clock_after t done)
    (hand_out t done) done.
Proof.
  intros Hret. revert t. induction Hret as [|tk done [v Hv] _ IH]; intros t; [constructor|].
  cbn [hand_out]. rewrite Hv, clock_after_cons.
  pose proof (clock_after_ge (t `max` op_settle (task_op tk)) done).
  constructor; cbn [ev_time ev_item ev_value].
  - repeat split; [done|lia..].
  - eapply Forall2_impl; [apply IH|].
    cbn beta. intros e tk' (?&?&?&?&?). repeat split; [done..|lia|done|done].
Qed.

Lemma hand_out_length t done : Forall returns done → length (hand_out t done) = length done.
Proof. intros H. by eapply Forall2_length, hand_out_spec. Qed.

Lemma hand_out_items t done :
  Forall returns done → ev_item <$> hand_out t done = (op_item ∘ task_op) <$> done.
Proof.
  intros Hret. revert t. induction Hret as [|tk done [v Hv] _ IH]; intros t; simpl; [done|].
  rewrite Hv. simpl. f_equal. apply IH.
Qed.

(** When the queue is in completion order and no task had settled before
    the loop began, every value is handed out the instant its task
    settles. *)
Lemma hand_out_on_time t done :
  Forall returns done → StronglySorted settles_by done →
  Forall (λ tk, t ≤ op_settle (task_op tk)) done →
  ev_time <$> hand_out t done = (op_settle ∘ task_op) <$> done.
Proof.
  intros Hret. revert t. induction Hret as [|tk done [v Hv] _ IH]; intros t Hs Ht; simpl; [done|].
  rewrite Hv. simpl. apply StronglySorted_cons in Hs as [Hfirst Hs].
  apply Forall_cons in Ht as [Ht0 Ht].
  rewrite Nat.max_r by done. f_equal. apply IH; [done|].
  eapply Forall_impl; [exact Hfirst|]. done.
Qed.

End draining.

(** ** Loops and logs *)

Section loops.
Context {Y A : Type}.

(** An invariant of a loop whose body always runs to its end. *)
Lemma for_each_invariant (P : nat → Frame Y → Prop) (l : list A)
    (body : A → Gen Y unit) (f0 : Frame Y) :
  P 0 f0 →
  (∀ k x f, l !! k = Some x → P k f → ∃ f', body x f = (Go tt, f') ∧ P (S k) f') →
  ∃ f', for_each l body f0 = (Go tt, f') ∧ P (length l) f'.
Proof.
  revert P f0. induction l as [|x l IH]; intros P f0 H0 Hstep.
  - by exists f0.
  - destruct (Hstep 0 x f0) as (f1 & Hx & H1); [done..|].
    destruct (IH (λ k, P (S k)) f1) as (f' & Hl & HP); [done| |].
    + intros k y f Hk HPk. by apply (Hstep (S k)).
    + exists f'. split; [|done]. simpl. unfold gbind. by rewrite Hx.
Qed.

(** A loop whose body never lets an exception out lets none out. *)
Lemma for_each_no_raise (l : list A) (body : A → Gen Y unit) (f : Frame Y) e :
  (∀ x f' e', x ∈ l → (body x f').1 ≠ Halt (Raise e')) →
  (for_each l body f).1 ≠ Halt (Raise e).
Proof.
  revert f. induction l as [|x l IH]; intros f Hbody; [done|].
  simpl. unfold gbind. destruct (body x f) as [[[]|s] f'] eqn:Hx.
  - apply IH. intros y f'' e' Hy. apply Hbody. by right.
  - simpl. intros [= ->]. eapply (Hbody x f e); [by left|]. by rewrite Hx.
Qed.

End loops.

Section logs.
Implicit Types (os : list Op) (t : time).

Lemma in_flight_app os1 os2 t : in_flight (os1 ++ os2) t = in_flight os1 t + in_flight os2 t.
Proof. unfold in_flight. by rewrite filter_app, length_app. Qed.

Lemma in_flight_le os t : in_flight os t ≤ length os.
Proof. apply length_filter. Qed.

Lemma in_flight_none os t : Forall (λ o, running t o = false) os → in_flight os t = 0.
Proof.
  unfold in_flight. induction 1 as [|o os Ho _ IH]; [done|].
  rewrite filter_cons. destruct (decide (running t o = true)); [congruence|done].
Qed.

Lemma not_running_settled t (o : Op) : op_settle o ≤ t → running t o = false.
Proof. unfold running. intros. apply andb_false_iff. right. apply Nat.ltb_ge. lia. Qed.

Lemma not_running_unborn t (o : Op) : t < op_launch o → running t o = false.
Proof. unfold running. intros. apply andb_false_iff. left. apply Nat.leb_gt. lia. Qed.

End logs.

Section division.

Lemma batch_earlier (b k i : nat) : 0 < b → i < k * b → i / b < k.
Proof. intros. apply Nat.Div0.div_lt_upper_bound. lia. Qed.

Lemma batch_current (b k i : nat) : 0 < b → k * b ≤ i < k * b + b → i / b = k.
Proof. intros Hb Hi. symmetry. apply (Nat.div_unique i b k (i - k * b)); lia. Qed.

End division.

(** ** The tasks of the generators *)

Section tasks.
Context (loop : EventLoop) (client : AsyncClient).
Implicit Types (urls : list string).

Lemma concurrent_tasks_fetch t0 urls :
  concurrent_tasks client t0 urls = fetch_tasks client t0 0 (λ i, 100 * (i mod 3)) urls.
Proof.
  unfold concurrent_tasks, fetch_tasks, enumerate.
  rewrite <- list_fmap_compose, fmap_imap. apply imap_ext.
  intros i url _. simpl. apply create_fetch_task.
Qed.

Lemma batch_tasks_fetch t0 urls (b k : nat) :
  0 < b → k * b < length urls →
  batch_tasks client t0 urls (Z.of_nat b) (Z.of_nat (k * b)) =
    fetch_tasks client t0 (k * b) (λ _, 50) (take b (drop (k * b) urls)).
Proof.
  intros Hb Hk. unfold batch_tasks, fetch_tasks.
  rewrite batch_slice by done. rewrite fmap_imap. apply imap_ext.
  intros j url _. simpl. rewrite Nat2Z.id. apply create_fetch_task.
Qed.

Lemma fetch_tasks_length t0 base delay urls :
  length (fetch_tasks client t0 base delay urls) = length urls.
Proof. apply length_imap. Qed.

Lemma fetch_tasks_lookup t0 base delay urls j tk :
  fetch_tasks client t0 base delay urls !! j = Some tk ↔
  ∃ url, urls !! j = Some url ∧ tk = fetch_task client t0 (base + j) url (delay (base + j)).
Proof.
  unfold fetch_tasks. rewrite list_lookup_imap, fmap_Some. naive_solver.
Qed.

Lemma fetch_tasks_returns t0 base delay urls :
  Forall returns (fetch_tasks client t0 base delay urls).
Proof.
  apply Forall_lookup. intros j tk (url & _ & ->)%fetch_tasks_lookup. by eexists.
Qed.

Lemma fetch_tasks_items t0 base delay urls :
  (op_item ∘ task_op) <$> fetch_tasks client t0 base delay urls = seq base (length urls).
Proof.
  unfold fetch_tasks. rewrite fmap_imap.
  rewrite (imap_ext _ (λ j _, base + j)) by done.
  by rewrite imap_seq_0, fmap_add_seq, Nat.add_0_r.
Qed.

Lemma fetch_tasks_timing t0 base delay urls :
  Forall (λ tk, op_launch (task_op tk) = t0 ∧ t0 ≤ op_settle (task_op tk))
    (fetch_tasks client t0 base delay urls).
Proof.
  apply Forall_lookup. intros j tk (url & _ & ->)%fetch_tasks_lookup. simpl. lia.
Qed.

Lemma slow_tasks_explicit t0 (n : Z) :
  slow_tasks t0 n =
    (λ i : nat, {| task_op := {| op_item := i; op_launch := t0; op_settle := t0 + 100 |};
                   task_result := Returns ("Task " +:+ pretty (Z.of_nat i) +:+ " done") |})
      <$> seq 0 (Z.to_nat n).
Proof.
  unfold slow_tasks. rewrite range_items_unit, <- !list_fmap_compose.
  apply list_fmap_ext. intros _ i _. simpl. unfold create_task. simpl.
  by rewrite Nat2Z.id.
Qed.

Lemma slow_tasks_returns t0 n : Forall returns (slow_tasks t0 n).
Proof.
  rewrite slow_tasks_explicit. apply Forall_fmap, Forall_forall. intros i _. by eexists.
Qed.

End tasks.

(** ** One round: start the tasks, drain them in completion order *)

Section rounds.
Context {Y : Type} (loop : EventLoop).
Implicit Types (f : Frame Y) (coros : list (nat * Coro Y)).

Lemma hand_out_stamps t (done : list (Task Y)) :
  Forall returns done → event_stamp <$> hand_out t done = task_stamp <$> done.
Proof.
  intros Hret. revert t. induction Hret as [|tk done [v Hv] _ IH]; intros t; [done|].
  cbn [hand_out]. rewrite Hv. cbn [fmap list_fmap]. f_equal; [|apply IH].
  unfold event_stamp, task_stamp. simpl. by rewrite Hv.
Qed.

Lemma round_all coros f :
  Forall returns (create_task (now f) <$> coros) → demand f = None →
  gbind (as_completed loop coros) drain f =
    let tasks := create_task (now f) <$> coros in
    let done := completion_order loop tasks in
    (Go tt, Build_Frame (clock_after (now f) done) None
              (emitted f ++ hand_out (now f) done) (ops f ++ (task_op <$> tasks))).
Proof.
  intros Hret Hd. unfold gbind, as_completed.
  rewrite drain_all; [done| |done]. by apply completion_order_returns.
Qed.

(** The events of a round are the tasks of the round, in some order. *)
Lemma round_stamps t (tasks : list (Task Y)) :
  Forall returns tasks →
  event_stamp <$> hand_out t (completion_order loop tasks) ≡ₚ task_stamp <$> tasks.
Proof.
  intros Hret. rewrite hand_out_stamps by by apply completion_order_returns.
  by rewrite completion_order_perm.
Qed.

End rounds.

(** ** No exception leaves a generator *)

Section no_raise.
Context (loop : EventLoop) (client : AsyncClient).

Lemma drain_no_raise {Y : Type} (done : list (Task Y)) (f : Frame Y) e :
  Forall returns done → (drain done f).1 ≠ Halt (Raise e).
Proof.
  intros Hret. apply for_each_no_raise. intros tk f' e' Htk.
  rewrite Forall_forall in Hret. destruct (Hret tk Htk) as [v Hv].
  unfold gbind, await_task, yield_. rewrite Hv. simpl.
  by destruct (demand f') as [[|[|k]]|].
Qed.

Lemma created_fetch_returns (t : time) (item : nat → nat) (delay : time)
    (urls : list string) :
  Forall returns
    (create_task t <$> imap (λ k url, (item k, fetch_url client url delay)) urls).
Proof.
  rewrite fmap_imap. apply Forall_lookup. intros j tk.
  rewrite list_lookup_imap, fmap_Some. intros (url & _ & ->).
  simpl. rewrite create_fetch_task. by eexists.
Qed.

Lemma sequential_http_no_raise urls (f : Frame dict) e :
  (sequential_http_gen client urls f).1 ≠ Halt (Raise e).
Proof.
  apply for_each_no_raise. intros [i url] f' e' _.
  unfold gbind, await, yield_. rewrite fetch_url_run. simpl.
  by destruct (demand f') as [[|[|k]]|].
Qed.

Lemma concurrent_http_no_raise urls (f : Frame dict) e :
  (concurrent_http_gen loop client urls f).1 ≠ Halt (Raise e).
Proof.
  unfold concurrent_http_gen, gbind, as_completed.
  apply (drain_no_raise _ _ e). apply completion_order_returns.
  fold (concurrent_tasks client (now f) urls).
  rewrite concurrent_tasks_fetch. apply fetch_tasks_returns.
Qed.

Lemma batch_http_no_raise urls (batch_size : Z) (f : Frame dict) e :
  batch_size ≠ 0%Z → (batch_http_gen loop client urls batch_size f).1 ≠ Halt (Raise e).
Proof.
  intros HB. unfold batch_http_gen, gbind at 1, eval, range.
  destruct (Z.eqb_spec batch_size 0) as [|_]; [done|].
  apply for_each_no_raise. intros i f' e' _.
  unfold gbind, as_completed.
  apply (drain_no_raise _ _ e'), completion_order_returns, created_fetch_returns.
Qed.

End no_raise.

(** ** The batches of [batch_http_gen] *)

Section batch_runs.
Context (loop : EventLoop) (client : AsyncClient).

Lemma round_events {Y : Type} (t : time) (nt : list (Task Y)) (e : Event Y) :
  Forall returns nt → e ∈ hand_out t (completion_order loop nt) →
  ∃ tk, tk ∈ nt ∧ ev_item e = op_item (task_op tk)
        ∧ task_result tk = Returns (ev_value e)
        ∧ t ≤ ev_time e
        ∧ op_settle (task_op tk) ≤ ev_time e
        ∧ ev_time e ≤ clock_after t (completion_order loop nt).
Proof.
  intros Hret [p Hp]%list_elem_of_lookup_1.
  pose proof (hand_out_spec t _ (completion_order_returns loop nt Hret)) as H2.
  destruct (Forall2_lookup_l _ _ _ _ _ H2 Hp) as (tk & Htk & H).
  exists tk. split; [|done].
  rewrite <- (completion_order_perm loop nt). by eapply list_elem_of_lookup_2.
Qed.

Lemma round_settled {Y : Type} (t : time) (nt : list (Task Y)) (tk : Task Y) :
  tk ∈ nt → op_settle (task_op tk) ≤ clock_after t (completion_order loop nt).
Proof.
  intros Htk. pose proof (clock_after_settled t (completion_order loop nt)) as H.
  rewrite Forall_forall in H. apply H. by rewrite completion_order_perm.
Qed.

Section invariant.
Context (urls : list string) (b : nat) (t0 : time).
Context (k : nat) (f : Frame dict) (ts : list (Task dict)).
Context (Hinv : batch_inv client urls b t0 k f ts).

Lemma inv_item j tk : ts !! j = Some tk → op_item (task_op tk) = j.
Proof. intros Hj. by destruct (bi_tasks _ _ _ _ _ _ _ Hinv j tk Hj) as (url & t & _ & ->). Qed.

Lemma inv_item_lt tk : tk ∈ ts → op_item (task_op tk) < length ts.
Proof.
  intros [j Hj]%list_elem_of_lookup_1. rewrite (inv_item j tk Hj).
  by eapply lookup_lt_Some.
Qed.

Lemma inv_event_item e : e ∈ emitted f → ev_item e < length ts.
Proof.
  intros He. assert (event_stamp e ∈ task_stamp <$> ts) as Hs.
  { rewrite <- (bi_stamps _ _ _ _ _ _ _ Hinv). by apply list_elem_of_fmap_2. }
  apply list_elem_of_fmap in Hs as (tk & Heq & Htk).
  injection Heq as Hi _. rewrite Hi. by apply inv_item_lt.
Qed.

End invariant.
End batch_runs.

Section batch_steps.
Context (loop : EventLoop) (client : AsyncClient).
Context (urls : list string) (b : nat) (t0 : time).

Lemma batch_inv_start : batch_inv client urls b t0 0 (start t0 None) [].
Proof.
  split; simpl; try done.
  - intros tk Htk. by apply elem_of_nil in Htk.
  - intros x y Hx. by apply elem_of_nil in Hx.
  - intros e y He. by apply elem_of_nil in He.
  - intros t. unfold in_flight. simpl. lia.
Qed.

Section step.
Context (k : nat) (f : Frame dict) (ts : list (Task dict)).
Context (Hb : 0 < b) (Hk : k * b < length urls).
Context (Hinv : batch_inv client urls b t0 k f ts).

Local Abbreviation nt :=
  (fetch_tasks client (now f) (k * b) (λ _, 50) (take b (drop (k * b) urls))).
Local Abbreviation done := (completion_order loop nt).

Lemma step_count : length ts = k * b.
Proof. rewrite (bi_count _ _ _ _ _ _ _ Hinv). lia. Qed.

Lemma step_new_length : length nt = b `min` (length urls - k * b).
Proof. by rewrite fetch_tasks_length, length_take, length_drop. Qed.

Lemma step_new_lookup j tk :
  nt !! j = Some tk →
  ∃ url, urls !! (k * b + j) = Some url ∧ j < b
         ∧ tk = fetch_task client (now f) (k * b + j) url 50.
Proof.
  intros (url & Hurl & ->)%fetch_tasks_lookup.
  apply lookup_take_Some in Hurl as [Hurl Hj]. rewrite lookup_drop in Hurl.
  by exists url.
Qed.

Lemma step_new tk :
  tk ∈ nt →
  k * b ≤ op_item (task_op tk) < k * b + b
  ∧ op_launch (task_op tk) = now f
  ∧ now f ≤ op_settle (task_op tk)
  ∧ op_settle (task_op tk) ≤ clock_after (now f) done.
Proof.
  intros Htk. pose proof (round_settled loop (now f) nt tk Htk) as Hs.
  apply list_elem_of_lookup_1 in Htk as [j Hj].
  apply step_new_lookup in Hj as (url & _ & Hj & ->).
  cbn [fetch_task task_op op_item op_launch op_settle] in *. lia.
Qed.

Lemma step_old tk : tk ∈ ts → op_item (task_op tk) < k * b.
Proof. intros Htk. rewrite <- step_count. by eapply inv_item_lt. Qed.

Lemma step_old_event e : e ∈ emitted f → ev_item e < k * b.
Proof. intros He. rewrite <- step_count. by eapply inv_event_item. Qed.

Lemma step_new_event e :
  e ∈ hand_out (now f) done →
  k * b ≤ ev_item e < k * b + b
  ∧ now f ≤ ev_time e ≤ clock_after (now f) done.
Proof.
  intros He. apply round_events in He as (tk & Htk & Hi & _ & ? & _ & ?);
    [|apply fetch_tasks_returns].
  apply step_new in Htk. lia.
Qed.

Lemma batch_inv_step :
  batch_inv client urls b t0 (S k)
    (Build_Frame (clock_after (now f) done) None
       (emitted f ++ hand_out (now f) done) (ops f ++ (task_op <$> nt)))
    (ts ++ nt).
Proof.
  pose proof (clock_after_ge (now f) done) as Hclock.
  pose proof Hinv as [Hd Hops Hst Hcnt Htasks Hc Hbegin Hset Hy Hfirst Hbar Hyb Hord Hwin].
  split; simpl.
  - done.
  - by rewrite fmap_app, Hops.
  - rewrite !fmap_app. apply Permutation_app; [done|].
    apply round_stamps, fetch_tasks_returns.
  - rewrite length_app, step_count, step_new_length. lia.
  - intros j tk Hj. apply lookup_app_Some in Hj as [Hj|[Hlen Hj]]; [by apply Htasks|].
    rewrite step_count in Hlen, Hj.
    apply step_new_lookup in Hj as (url & Hurl & _ & ->).
    replace (k * b + (j - k * b)) with j in * by lia. by exists url, (now f).
  - lia.
  - done.
  - apply Forall_app. split.
    + eapply Forall_impl; [exact Hset|]. simpl. intros; lia.
    + apply Forall_forall. intros tk Htk. by apply step_new in Htk as (_ & _ & _ & ?).
  - apply Forall_app. split.
    + eapply Forall_impl; [exact Hy|]. simpl. intros; lia.
    + apply Forall_forall. intros e He. apply step_new_event in He. lia.
  - intros tk [Htk|Htk]%elem_of_app Hi; [by apply Hfirst|].
    apply step_new in Htk as (Hitem & -> & _). apply Hbegin. nia.
  - intros x y [Hx|Hx]%elem_of_app [Hy'|Hy']%elem_of_app Hxy.
    + by apply Hbar.
    + rewrite Forall_forall in Hset. apply Hset in Hx.
      apply step_new in Hy' as (_ & -> & _). done.
    + apply step_new in Hx as (Hx & _). apply step_old in Hy'.
      rewrite (batch_current b k) in Hxy by done.
      pose proof (batch_earlier b k _ Hb Hy'). lia.
    + apply step_new in Hx as (Hx & _). apply step_new in Hy' as (Hy' & _).
      rewrite !(batch_current b k) in Hxy by done. lia.
  - intros e y [He|He]%elem_of_app [Hy'|Hy']%elem_of_app Hey.
    + by apply Hyb.
    + rewrite Forall_forall in Hy. apply Hy in He.
      apply step_new in Hy' as (_ & -> & _). done.
    + apply step_new_event in He as (He & _). apply step_old in Hy'.
      rewrite (batch_current b k) in Hey by done.
      pose proof (batch_earlier b k _ Hb Hy'). lia.
    + apply step_new_event in He as (He & _). apply step_new in Hy' as (Hy' & _).
      rewrite !(batch_current b k) in Hey by done. lia.
  - intros p q e1 e2 Hp Hq Hpq.
    apply lookup_app_Some in Hp as [Hp|[Hplen Hp]];
      apply lookup_app_Some in Hq as [Hq|[Hqlen Hq]].
    + by eapply Hord.
    + apply lookup_lt_Some in Hp. lia.
    + apply list_elem_of_lookup_2, step_new_event in Hp as (Hp & _).
      apply list_elem_of_lookup_2, step_old_event in Hq.
      rewrite (batch_current b k) in Hpq by done.
      pose proof (batch_earlier b k _ Hb Hq). lia.
    + apply list_elem_of_lookup_2, step_new_event in Hp as (Hp & _).
      apply list_elem_of_lookup_2, step_new_event in Hq as (Hq & _).
      rewrite !(batch_current b k) in Hpq by done. lia.
  - intros t. rewrite in_flight_app.
    destruct (decide (t < now f)) as [Ht|Ht].
    + rewrite (in_flight_none (task_op <$> nt)); [specialize (Hwin t); lia|].
      apply Forall_fmap, Forall_forall. intros tk Htk. simpl.
      apply not_running_unborn. apply step_new in Htk. lia.
    + rewrite (in_flight_none (ops f)).
      * pose proof (in_flight_le (task_op <$> nt) t) as Hle.
        rewrite length_fmap, step_new_length in Hle. lia.
      * rewrite Hops. apply Forall_fmap. eapply Forall_impl; [exact Hset|].
        simpl. intros tk Htk. apply not_running_settled. lia.
Qed.

End step.
End batch_steps.

Section batch_whole.
Context (loop : EventLoop) (client : AsyncClient).
Context (urls : list string) (b : nat) (t0 : time).
Context (Hb : 0 < b).

Local Abbreviation rounds := (range_length 0 (Z.of_nat (length urls)) (Z.of_nat b)).

Lemma rounds_cover : length urls ≤ rounds * b.
Proof.
  destruct (decide (length urls ≤ rounds * b)) as [|Hlt]; [done|].
  assert (rounds < rounds); [|lia].
  apply range_length_lt; [lia|]. nia.
Qed.

Lemma round_start k i :
  range_items 0 (Z.of_nat (length urls)) (Z.of_nat b) !! k = Some i →
  i = Z.of_nat (k * b) ∧ k * b < length urls.
Proof. intros [-> Hk]%range_items_lookup; [|lia]. split; nia. Qed.

(** The whole run, for a consumer that iterates to the end. *)
Lemma batch_http_run :
  ∃ f ts,
    consume None (batch_http_gen loop client urls (Z.of_nat b)) t0 = (Go tt, f)
    ∧ batch_inv client urls b t0 rounds f ts
    ∧ length ts = length urls.
Proof.
  unfold consume, batch_http_gen, gbind at 1, eval, range.
  destruct (Z.eqb_spec (Z.of_nat b) 0) as [|_]; [lia|].
  match goal with
  | |- context [for_each ?l ?body ?f0] =>
      destruct (for_each_invariant (λ k f, ∃ ts, batch_inv client urls b t0 k f ts)
                  l body f0) as (f & Hrun & ts & Hinv)
  end.
  - exists []. apply batch_inv_start.
  - intros k i f Hi [ts Hinv]. apply round_start in Hi as [-> Hk].
    assert (create_task (now f)
              <$> imap (λ j url, (Z.to_nat (Z.of_nat (k * b)) + j, fetch_url client url 50))
                    (slice urls (Z.of_nat (k * b)) (Z.of_nat (k * b) + Z.of_nat b))
            = fetch_tasks client (now f) (k * b) (λ _, 50) (take b (drop (k * b) urls)))
      as Htasks by by apply batch_tasks_fetch.
    eexists. split.
    + apply round_all; [|by destruct Hinv].
      rewrite Htasks. apply fetch_tasks_returns.
    + cbn zeta. rewrite Htasks. eexists. by apply batch_inv_step.
  - rewrite range_items_length in Hinv. exists f, ts. split_and!; [exact Hrun|done|].
    rewrite (bi_count _ _ _ _ _ _ _ Hinv). pose proof rounds_cover. lia.
Qed.

(** The batches are consecutive stretches of the input, none empty, none
    longer than the batch size. *)
Lemma batches_partition :
  let batches := (λ i, slice urls i (i + Z.of_nat b))
                   <$> range_items 0 (Z.of_nat (length urls)) (Z.of_nat b) in
  concat batches = urls
  ∧ Forall (λ batch, 0 < length batch ≤ b) batches
  ∧ ∀ k batch, batches !! k = Some batch → batch = take b (drop (k * b) urls).
Proof.
  intros batches.
  assert (∀ k batch, batches !! k = Some batch →
                     batch = take b (drop (k * b) urls) ∧ k * b < length urls) as Hlook.
  { intros k batch. unfold batches. rewrite list_lookup_fmap, fmap_Some.
    intros (i & [-> Hk]%round_start & ->).
    by rewrite batch_slice. }
  assert (batches = (λ k, take b (drop (k * b) urls)) <$> seq 0 rounds) as Heq.
  { apply list_eq. intros k. destruct (batches !! k) as [batch|] eqn:Hk.
    - destruct (Hlook k batch Hk) as [-> _]. symmetry.
      rewrite list_lookup_fmap, fmap_Some. exists k. split; [|done].
      apply lookup_seq. split; [done|].
      apply lookup_lt_Some in Hk. unfold batches in Hk.
      by rewrite length_fmap, range_items_length in Hk.
    - symmetry. apply lookup_ge_None. apply lookup_ge_None in Hk.
      unfold batches in Hk. rewrite length_fmap, range_items_length in Hk.
      by rewrite length_fmap, length_seq. }
  split_and!.
  - rewrite Heq, batches_take. apply take_ge, rounds_cover.
  - apply Forall_lookup. intros k batch Hk. destruct (Hlook k batch Hk) as [-> Hlt].
    rewrite length_take, length_drop. lia.
  - intros k batch Hk. by destruct (Hlook k batch Hk).
Qed.

End batch_whole.

Section abandoned_rounds.
Context {Y : Type} (loop : EventLoop).

Lemma round_abandoned (coros : list (nat * Coro Y)) (f : Frame Y) (k : nat) :
  Forall returns (create_task (now f) <$> coros) → demand f = Some (S k) →
  k < length coros →
  gbind (as_completed loop coros) drain f =
    let tasks := create_task (now f) <$> coros in
    let done := completion_order loop tasks in
    (Halt Suspend,
     Build_Frame (clock_after (now f) (take (S k) done)) (Some 0)
       (emitted f ++ take (S k) (hand_out (now f) done)) (ops f ++ (task_op <$> tasks))).
Proof.
  intros Hret Hd Hk. unfold gbind, as_completed.
  rewrite (drain_abandoned _ _ k); [done| |done|].
  - by apply completion_order_returns.
  - by rewrite completion_order_length, length_fmap.
Qed.

End abandoned_rounds.

(** ** The concurrent generators *)

Section concurrent_runs.
Context (loop : EventLoop) (client : AsyncClient).

Lemma concurrent_http_run (urls : list string) (t0 : time) :
  consume None (concurrent_http_gen loop client urls) t0 =
    (Go tt,
     Build_Frame
       (clock_after t0 (completion_order loop (concurrent_tasks client t0 urls))) None
       (hand_out t0 (completion_order loop (concurrent_tasks client t0 urls)))
       (task_op <$> concurrent_tasks client t0 urls)).
Proof.
  unfold consume, concurrent_http_gen.
  etransitivity; [apply (round_all loop _ (start t0 None)); [|done]|done].
  change (Forall returns (concurrent_tasks client t0 urls)).
  rewrite concurrent_tasks_fetch. apply fetch_tasks_returns.
Qed.

Lemma concurrent_http_abandoned (urls : list string) (t0 : time) (k : nat) :
  k < length urls →
  consume (Some (S k)) (concurrent_http_gen loop client urls) t0 =
    (Halt Suspend,
     Build_Frame
       (clock_after t0 (take (S k) (completion_order loop (concurrent_tasks client t0 urls))))
       (Some 0)
       (take (S k) (hand_out t0 (completion_order loop (concurrent_tasks client t0 urls))))
       (task_op <$> concurrent_tasks client t0 urls)).
Proof.
  intros Hk. unfold consume, concurrent_http_gen.
  etransitivity; [apply (round_abandoned loop _ (start t0 (Some (S k))) k); [|done|]|done].
  - change (Forall returns (concurrent_tasks client t0 urls)).
    rewrite concurrent_tasks_fetch. apply fetch_tasks_returns.
  - by rewrite length_fmap, enumerate_length.
Qed.

Lemma concurrent_gen_run (n : Z) (t0 : time) :
  consume None (concurrent_gen loop n) t0 =
    (Go tt,
     Build_Frame (clock_after t0 (completion_order loop (slow_tasks t0 n))) None
       (hand_out t0 (completion_order loop (slow_tasks t0 n)))
       (task_op <$> slow_tasks t0 n)).
Proof.
  unfold consume, concurrent_gen.
  etransitivity; [apply (round_all loop _ (start t0 None)); [|done]|done].
  apply slow_tasks_returns.
Qed.

Lemma reply_dict_url (url : string) (r : outcome Response) :
  reply_dict url r !! "url" = Some (VStr url).
Proof. by destruct r. Qed.

Lemma identity_of_stamp (e : Event dict) : identity_of e = stamp_identity (event_stamp e).
Proof. done. Qed.

Lemma identities_lookup (urls : list string) (j : nat) :
  identities urls !! j = (λ url, (j, Some (VStr url))) <$> urls !! j.
Proof.
  unfold identities. rewrite list_lookup_fmap, enumerate_lookup.
  by destruct (urls !! j).
Qed.

(** Tasks that stand, place by place, for calls of [fetch_url] on the input
    carry the identities of the input. *)
Lemma tasks_identities (urls : list string) (ts : list (Task dict)) :
  length ts = length urls →
  (∀ j tk, ts !! j = Some tk →
           ∃ url t delay, urls !! j = Some url ∧ tk = fetch_task client t j url delay) →
  (stamp_identity ∘ task_stamp) <$> ts = identities urls.
Proof.
  intros Hlen Hts. apply list_eq. intros j.
  rewrite list_lookup_fmap, identities_lookup.
  destruct (ts !! j) as [tk|] eqn:Hj.
  - destruct (Hts j tk Hj) as (url & t & delay & -> & ->). simpl.
    unfold stamp_identity, task_stamp. simpl. by rewrite reply_dict_url.
  - apply lookup_ge_None in Hj. rewrite Hlen in Hj.
    apply lookup_ge_None in Hj. by rewrite Hj.
Qed.

Lemma stamps_identities (urls : list string) (ts : list (Task dict))
    (es : list (Event dict)) :
  event_stamp <$> es ≡ₚ task_stamp <$> ts →
  (stamp_identity ∘ task_stamp) <$> ts = identities urls →
  identity_of <$> es ≡ₚ identities urls.
Proof.
  intros Hperm <-. rewrite (list_fmap_compose task_stamp stamp_identity), <- Hperm.
  rewrite <- list_fmap_compose. done.
Qed.

(** The URLs the outcomes carry are then the URLs of the input, in some
    order. *)
Lemma identities_urls (urls : list string) (es : list (Event dict)) :
  identity_of <$> es ≡ₚ identities urls →
  (λ e, ev_value e !! "url") <$> es ≡ₚ (λ url, Some (VStr url)) <$> urls.
Proof.
  intros Hid. apply (fmap_Permutation snd) in Hid.
  rewrite <- list_fmap_compose in Hid. etransitivity; [exact Hid|].
  unfold identities. rewrite <- list_fmap_compose.
  rewrite <- (enumerate_snd urls) at 2. rewrite <- list_fmap_compose.
  replace (snd ∘ (λ '(i, url), (i, Some (VStr url))) <$> enumerate urls)
    with ((λ url, Some (VStr url)) ∘ snd <$> enumerate urls); [done|].
  apply list_fmap_ext. by intros _ [i url] _.
Qed.

Lemma concurrent_tasks_lookup (urls : list string) (t0 : time) j tk :
  concurrent_tasks client t0 urls !! j = Some tk ↔
  ∃ url, urls !! j = Some url ∧ tk = fetch_task client t0 j url (100 * (j mod 3)).
Proof. rewrite concurrent_tasks_fetch. apply fetch_tasks_lookup. Qed.

Lemma concurrent_stamps (urls : list string) (t0 : time) :
  event_stamp <$> hand_out t0 (completion_order loop (concurrent_tasks client t0 urls))
  ≡ₚ task_stamp <$> concurrent_tasks client t0 urls.
Proof. apply round_stamps. rewrite concurrent_tasks_fetch. apply fetch_tasks_returns. Qed.

(** Every item of the input has its event, carrying the dictionary made from
    its own request. *)
Lemma concurrent_http_event (urls : list string) (t0 : time) (j : nat) (url : string) :
  urls !! j = Some url →
  ∃ e, e ∈ hand_out t0 (completion_order loop (concurrent_tasks client t0 urls))
       ∧ ev_item e = j
       ∧ ev_value e = reply_dict url (request_of client t0 (100 * (j mod 3)) url).
Proof.
  intros Hj.
  assert (task_stamp (fetch_task client t0 j url (100 * (j mod 3)))
          ∈ task_stamp <$> concurrent_tasks client t0 urls) as Hin.
  { apply list_elem_of_fmap_2. eapply list_elem_of_lookup_2.
    apply concurrent_tasks_lookup. by exists url. }
  rewrite <- concurrent_stamps in Hin.
  apply list_elem_of_fmap in Hin as (e & Heq & He).
  exists e. split; [done|]. unfold task_stamp, event_stamp, fetch_task in Heq.
  cbn [task_op task_result op_item] in Heq. by injection Heq as <- <-.
Qed.

End concurrent_runs.

Section concurrent_counts.
Context (loop : EventLoop) (client : AsyncClient).

(** One event per item. *)
Lemma each_item_count (urls : list string) (t0 : time) :
  length (hand_out t0 (completion_order loop (concurrent_tasks client t0 urls)))
    = length urls
  ∧ ev_item <$> hand_out t0 (completion_order loop (concurrent_tasks client t0 urls))
    ≡ₚ seq 0 (length urls).
Proof.
  assert (Forall returns (completion_order loop (concurrent_tasks client t0 urls))) as Hret.
  { apply completion_order_returns. rewrite concurrent_tasks_fetch.
    apply fetch_tasks_returns. }
  split.
  - rewrite hand_out_length by done.
    by rewrite completion_order_length, concurrent_tasks_fetch, fetch_tasks_length.
  - rewrite hand_out_items by done. rewrite completion_order_perm.
    by rewrite concurrent_tasks_fetch, fetch_tasks_items.
Qed.

End concurrent_counts.

Section completion_order_of_events.
Context (loop : EventLoop) (client : AsyncClient).

(** In a run of [concurrent_http_gen] the event at a place of the output
    comes from the task at the same place of the completion queue, and an
    operation of the log is the operation of the task for its item. *)
Lemma concurrent_event_task (urls : list string) (t0 : time) (p : nat) (e : Event dict)
    (o : Op) :
  hand_out t0 (completion_order loop (concurrent_tasks client t0 urls)) !! p = Some e →
  o ∈ task_op <$> concurrent_tasks client t0 urls →
  op_item o = ev_item e →
  ∃ tk, completion_order loop (concurrent_tasks client t0 urls) !! p = Some tk
        ∧ task_op tk = o.
Proof.
  intros Hp Ho Hitem.
  assert (Forall returns (completion_order loop (concurrent_tasks client t0 urls))) as Hret.
  { apply completion_order_returns. rewrite concurrent_tasks_fetch.
    apply fetch_tasks_returns. }
  destruct (Forall2_lookup_l _ _ _ _ _ (hand_out_spec t0 _ Hret) Hp)
    as (tk & Htk & Hi & _).
  exists tk. split; [done|].
  assert (tk ∈ concurrent_tasks client t0 urls) as Hin.
  { rewrite <- (completion_order_perm loop). by eapply list_elem_of_lookup_2. }
  apply list_elem_of_fmap in Ho as (tk' & -> & Hin').
  apply list_elem_of_lookup_1 in Hin as [j Hj].
  apply list_elem_of_lookup_1 in Hin' as [j' Hj'].
  pose proof Hj as (url & _ & Heq)%concurrent_tasks_lookup.
  pose proof Hj' as (url' & _ & Heq')%concurrent_tasks_lookup.
  assert (j = j') as <-.
  { rewrite Heq, Heq' in *. cbn [fetch_task task_op op_item] in *. lia. }
  congruence.
Qed.

End completion_order_of_events.

Section on_time.
Context (loop : EventLoop) (client : AsyncClient).

(** In a run of [concurrent_http_gen] every outcome is handed over at the
    instant its operation settles. *)
Lemma concurrent_event_on_time (urls : list string) (t0 : time) (p : nat) (e : Event dict) :
  hand_out t0 (completion_order loop (concurrent_tasks client t0 urls)) !! p = Some e →
  ∃ tk, tk ∈ concurrent_tasks client t0 urls
        ∧ op_item (task_op tk) = ev_item e
        ∧ op_settle (task_op tk) = ev_time e.
Proof.
  intros Hp.
  assert (Forall returns (concurrent_tasks client t0 urls)) as Hret0.
  { rewrite concurrent_tasks_fetch. apply fetch_tasks_returns. }
  pose proof (completion_order_returns loop _ Hret0) as Hret.
  destruct (Forall2_lookup_l _ _ _ _ _ (hand_out_spec t0 _ Hret) Hp)
    as (tk & Htk & Hi & _).
  exists tk. split_and!; [|done|].
  - rewrite <- (completion_order_perm loop). by eapply list_elem_of_lookup_2.
  - pose proof (hand_out_on_time t0 _ Hret
                  (completion_order_sorted loop (concurrent_tasks client t0 urls))) as Htime.
    assert (ev_time <$> hand_out t0 (completion_order loop (concurrent_tasks client t0 urls))
            = (op_settle ∘ task_op) <$> completion_order loop (concurrent_tasks client t0 urls))
      as Heq.
    { apply Htime. rewrite completion_order_perm, concurrent_tasks_fetch.
      eapply Forall_impl; [apply fetch_tasks_timing|]. by intros ? [_ ?]. }
    apply (f_equal (λ l, l !! p)) in Heq. rewrite !list_lookup_fmap, Hp, Htk in Heq.
    simpl in Heq. by injection Heq.
Qed.

End on_time.

Section shared_loop.
Context (loop : EventLoop) (client : AsyncClient).

Lemma concurrent_http_gen_loop (urls : list string) :
  concurrent_http_gen loop client urls =
    yield_as_completed loop
      ((λ '(i, url), (i, fetch_url client url (100 * (i mod 3)))) <$> enumerate urls).
Proof. done. Qed.

Lemma concurrent_gen_loop (n : Z) :
  concurrent_gen loop n =
    yield_as_completed loop ((λ i, (Z.to_nat i, slow_task i)) <$> range_items 0 n 1).
Proof. done. Qed.

End shared_loop.

(** ** The model at work *)

(** A request awaited without the handler of [fetch_url] ends the stream
    with its exception: the handler is what keeps failures inside the
    outcomes. *)
Example unguarded_request_ends_the_stream :
  (consume None
     (yield_as_completed fifo_loop
        [ (0, (response ← http_get sample_client "down" request_timeout;
               ret (status_code response))%coro) ]) 0).1
  = Halt (Raise {| exc_class := "ConnectError"; exc_str := "connection refused" |}).
Proof. reflexivity. Qed.

(** Five items in batches of two: the outcomes of a batch come in the order
    in which its operations settle, and the next batch starts when the
    slowest operation of the batch has settled. *)
Example batches_of_two :
  let f := (consume None
              (batch_http_gen fifo_loop sample_client ["A"; "B"; "C"; "down"; "E"] 2) 0).2 in
  (λ e, (ev_time e, ev_item e)) <$> emitted f = [(50, 1); (350, 0); (400, 2); (405, 3); (465, 4)]
  ∧ (λ o, (op_launch o, op_settle o)) <$> ops f
    = [(0, 350); (0, 50); (350, 400); (350, 405); (405, 465)].
Proof. vm_compute. done. Qed.

(** One after another: each operation starts when the outcome before it has
    been handed over. *)
Example one_at_a_time :
  let f := (consume None (sequential_http_gen sample_client ["A"; "B"; "C"]) 0).2 in
  (λ e, (ev_time e, ev_item e)) <$> emitted f = [(300, 0); (400, 1); (600, 2)]
  ∧ (λ o, (op_launch o, op_settle o)) <$> ops f = [(0, 300); (300, 400); (400, 600)].
Proof. vm_compute. done. Qed.

(** * The claims *)

(** C10.  For every client, URL, delay and starting instant, [fetch_url]
    returns a dictionary with the keys url, status, length and success; url
    is the URL asked for; success is true exactly when the request raised
    nothing, and then status and length are those of the response and there
    is no error key; when the request raised, success is false, status is
    None, length is 0 and error holds the text of the exception. *)
Theorem fetch_url_outcome_shape (client : AsyncClient) (url : string) (delay t0 : time) :
  ∃ (t1 : time) (d : dict),
    fetch_url client url delay t0 = (t1, Returns d)
    ∧ d !! "url" = Some (VStr url)
    ∧ is_Some (d !! "status") ∧ is_Some (d !! "length") ∧ is_Some (d !! "success")
    ∧ (d !! "success" = Some (VBool true)
       ↔ ∃ response, request_of client t0 delay url = Returns response)
    ∧ (∀ response, request_of client t0 delay url = Returns response →
         d !! "success" = Some (VBool true)
         ∧ d !! "status" = Some (VInt (status_code response))
         ∧ d !! "length" = Some (VInt (Z.of_nat (String.length (text response))))
         ∧ d !! "error" = None)
    ∧ (∀ e, request_of client t0 delay url = Raises e →
         d !! "success" = Some (VBool false)
         ∧ d !! "status" = Some VNone
         ∧ d !! "length" = Some (VInt 0)
         ∧ d !! "error" = Some (VStr (exc_str e))).
Proof.
  eexists _, _. split; [apply fetch_url_run|].
  destruct (request_of client t0 delay url) as [response|e]; cbn [reply_dict].
  - split_and!; [done|by eexists..| | |].
    + split; [by eexists|done].
    + intros ? [= <-]. by split_and!.
    + intros ? [=].
  - split_and!; [done|by eexists..| | |].
    + split; [done|by intros [??]].
    + intros ? [=].
    + intros ? [= <-]. by split_and!.
Qed.

Lemma fetch_url_outcome_shape_witness :
  ∃ (t1 : time) (d : dict),
    fetch_url sample_client "down" 0 0 = (t1, Returns d)
    ∧ d !! "success" = Some (VBool false)
    ∧ d !! "error" = Some (VStr "connection refused").
Proof.
  destruct (fetch_url_outcome_shape sample_client "down" 0 0)
    as (t1 & d & Hrun & _ & _ & _ & _ & _ & _ & Hfail).
  exists t1, d. split; [exact Hrun|].
  destruct (Hfail {| exc_class := "ConnectError"; exc_str := "connection refused" |})
    as (Hs & _ & _ & He); [reflexivity|].
  split; [exact Hs|exact He].
Defined.

(** C4.  [fetch_url] never raises: for every client, URL, delay and
    starting instant it returns a dictionary, and when its request raises
    the dictionary is a failure carrying the URL and the text of the
    exception.  No exception reaches the consumer of a generator, whatever
    the URLs and however many values the consumer takes (for the batch
    generator, with a batch size other than zero). *)
Theorem executor_never_throws (loop : EventLoop) (client : AsyncClient) :
  (∀ (url : string) (delay t0 : time),
     ∃ (t1 : time) (d : dict),
       fetch_url client url delay t0 = (t1, Returns d)
       ∧ ∀ e, request_of client t0 delay url = Raises e →
              d !! "url" = Some (VStr url)
              ∧ d !! "success" = Some (VBool false)
              ∧ d !! "error" = Some (VStr (exc_str e)))
  ∧ (∀ (urls : list string) (pulls : option nat) (t0 : time) e,
       (consume pulls (sequential_http_gen client urls) t0).1 ≠ Halt (Raise e)
       ∧ (consume pulls (concurrent_http_gen loop client urls) t0).1 ≠ Halt (Raise e)
       ∧ ∀ batch_size : Z, batch_size ≠ 0%Z →
           (consume pulls (batch_http_gen loop client urls batch_size) t0).1 ≠ Halt (Raise e)).
Proof.
  split.
  - intros url delay t0. eexists _, _. split; [apply fetch_url_run|].
    intros e ->. by split_and!.
  - intros urls pulls t0 e. split_and!.
    + destruct pulls as [[|k]|]; [done|apply sequential_http_no_raise..].
    + destruct pulls as [[|k]|]; [done|apply concurrent_http_no_raise..].
    + intros batch_size HB.
      destruct pulls as [[|k]|]; [done|by apply batch_http_no_raise..].
Qed.

Lemma executor_never_throws_witness :
  (∃ (t1 : time) (d : dict),
     fetch_url sample_client "down" 0 0 = (t1, Returns d)
     ∧ d !! "error" = Some (VStr "connection refused"))
  ∧ ∀ e, (consume None (batch_http_gen fifo_loop sample_client ["A"; "down"; "B"] 2) 0).1
         ≠ Halt (Raise e).
Proof.
  destruct (executor_never_throws fifo_loop sample_client) as [Hfetch Hgen]. split.
  - destruct (Hfetch "down" 0 0) as (t1 & d & Hrun & Hfail).
    exists t1, d. split; [exact Hrun|].
    destruct (Hfail {| exc_class := "ConnectError"; exc_str := "connection refused" |})
      as (_ & _ & He); [reflexivity|exact He].
  - intros e. destruct (Hgen ["A"; "down"; "B"] None 0 e) as (_ & _ & Hbatch).
    apply (Hbatch 2%Z). lia.
Defined.

(** C8.  For an empty sequence of items every generator ends at once: the
    consumer receives nothing, no operation is started and the clock has
    not moved (for the batch generator, with a batch size other than
    zero). *)
Theorem empty_input_yields_nothing (loop : EventLoop) (client : AsyncClient) (t0 : time)
    (batch_size : Z) :
  batch_size ≠ 0%Z →
  consume None (sequential_http_gen client []) t0 = (Go tt, start t0 None)
  ∧ consume None (concurrent_http_gen loop client []) t0 = (Go tt, start t0 None)
  ∧ consume None (batch_http_gen loop client [] batch_size) t0 = (Go tt, start t0 None)
  ∧ consume None (sequential_gen 0) t0 = (Go tt, start t0 None)
  ∧ consume None (concurrent_gen loop 0) t0 = (Go tt, start t0 None).
Proof.
  intros HB. split_and!; try done.
  unfold consume, batch_http_gen, gbind, eval, range.
  destruct (Z.eqb_spec batch_size 0) as [|_]; [done|].
  replace (range_items 0 (Z.of_nat (length (@nil string))) batch_size) with (@nil Z); [done|].
  unfold range_items, range_length. simpl.
  by destruct (0 <? batch_size)%Z, (batch_size <? 0)%Z.
Qed.

Lemma empty_input_yields_nothing_witness :
  consume None (batch_http_gen fifo_loop sample_client [] 5) 0 = (Go tt, start 0 None).
Proof.
  destruct (empty_input_yields_nothing fifo_loop sample_client 0 5) as (_ & _ & H & _);
    [lia|exact H].
Defined.

(** C5, as the code has it.  A batch size below one is not rejected when
    the generator is made.  With batch size zero the first value asked for
    raises the [ValueError] of [range], before any operation is started;
    with a negative batch size nothing is raised: the generator ends at
    once, having started no operation and yielded nothing. *)
Theorem batch_size_below_one (loop : EventLoop) (client : AsyncClient)
    (urls : list string) (t0 : time) (batch_size : Z) :
  (batch_size < 1)%Z →
  consume (Some 0) (batch_http_gen loop client urls batch_size) t0
    = (Halt Suspend, start t0 (Some 0))
  ∧ (batch_size = 0%Z →
     consume None (batch_http_gen loop client urls batch_size) t0
       = (Halt (Raise (ValueError "range() arg 3 must not be zero")), start t0 None))
  ∧ ((batch_size < 0)%Z →
     consume None (batch_http_gen loop client urls batch_size) t0 = (Go tt, start t0 None)).
Proof.
  intros _. split_and!; [done|by intros ->|].
  intros HB. unfold consume, batch_http_gen, gbind, eval, range.
  destruct (Z.eqb_spec batch_size 0) as [|_]; [lia|].
  by rewrite range_items_negative.
Qed.

Lemma batch_size_below_one_witness :
  consume None (batch_http_gen fifo_loop sample_client ["A"; "B"] (-2)) 0
    = (Go tt, start 0 None).
Proof.
  destruct (batch_size_below_one fifo_loop sample_client ["A"; "B"] 0 (-2)) as (_ & _ & H);
    [lia|apply H; lia].
Defined.

(** C5 as stated fails: with batch size -1 and one item, iterating the
    generator to the end raises nothing. *)
Lemma negative_batch_size_raises_nothing :
  ¬ ∃ e, (consume None (batch_http_gen fifo_loop sample_client ["A"] (-1)) 0).1
         = Halt (Raise e).
Proof. intros [e He]. vm_compute in He. discriminate He. Qed.

(** C1.  Whatever the client, the event loop, the URLs and the instant the
    consumer arrives, a consumer that iterates to the end receives exactly
    one outcome per input item: the outcomes, taken with the item they are
    for and the URL they carry, are the input items in some order, and so
    the URLs carried by the outcomes are the URLs of the input in some
    order.  This holds for [concurrent_http_gen], for [batch_http_gen] with
    any batch size of at least one, and (with the task number in the text
    yielded) for [concurrent_gen]. *)
Theorem each_item_yielded_once (loop : EventLoop) (client : AsyncClient)
    (urls : list string) (t0 : time) :
  (∃ f, consume None (concurrent_http_gen loop client urls) t0 = (Go tt, f)
        ∧ length (emitted f) = length urls
        ∧ identity_of <$> emitted f ≡ₚ identities urls
        ∧ (λ e, ev_value e !! "url") <$> emitted f ≡ₚ (λ url, Some (VStr url)) <$> urls)
  ∧ (∀ batch_size : Z, (1 ≤ batch_size)%Z →
       ∃ f, consume None (batch_http_gen loop client urls batch_size) t0 = (Go tt, f)
            ∧ length (emitted f) = length urls
            ∧ identity_of <$> emitted f ≡ₚ identities urls
            ∧ (λ e, ev_value e !! "url") <$> emitted f
              ≡ₚ (λ url, Some (VStr url)) <$> urls)
  ∧ (∀ n : Z,
       ∃ f, consume None (concurrent_gen loop n) t0 = (Go tt, f)
            ∧ length (emitted f) = Z.to_nat n
            ∧ (λ e, (ev_item e, ev_value e)) <$> emitted f
              ≡ₚ (λ i : nat, (i, "Task " +:+ pretty (Z.of_nat i) +:+ " done"))
                   <$> seq 0 (Z.to_nat n)).
Proof.
  split_and!.
  - eexists. split; [apply concurrent_http_run|]. cbn [emitted].
    assert (identity_of
              <$> hand_out t0 (completion_order loop (concurrent_tasks client t0 urls))
            ≡ₚ identities urls) as Hid.
    { eapply stamps_identities; [apply concurrent_stamps|].
      apply (tasks_identities client).
      - by rewrite concurrent_tasks_fetch, fetch_tasks_length.
      - intros j tk (url & ? & ->)%concurrent_tasks_lookup. by eexists _, _, _. }
    split_and!; [|done|by apply identities_urls].
    apply Permutation_length in Hid.
    rewrite length_fmap in Hid. rewrite Hid. unfold identities.
    by rewrite length_fmap, enumerate_length.
  - intros batch_size Hsize.
    destruct (batch_http_run loop client urls (Z.to_nat batch_size) t0)
      as (f & ts & Hrun & Hinv & Hlen); [lia|].
    rewrite Z2Nat.id in Hrun by lia.
    exists f. split; [done|].
    assert (identity_of <$> emitted f ≡ₚ identities urls) as Hid.
    { eapply stamps_identities; [apply (bi_stamps _ _ _ _ _ _ _ Hinv)|].
      apply (tasks_identities client); [done|].
      intros j tk Hj. destruct (bi_tasks _ _ _ _ _ _ _ Hinv j tk Hj) as (url & t & ? & ->).
      by eexists _, _, _. }
    split_and!; [|done|by apply identities_urls].
    apply Permutation_length in Hid.
    rewrite length_fmap in Hid. rewrite Hid. unfold identities.
    by rewrite length_fmap, enumerate_length.
  - intros n. eexists. split; [apply concurrent_gen_run|]. cbn [emitted].
    assert (Forall returns (completion_order loop (slow_tasks t0 n))) as Hret
      by apply completion_order_returns, slow_tasks_returns.
    split.
    + rewrite hand_out_length by done.
      by rewrite completion_order_length, slow_tasks_explicit, length_fmap, length_seq.
    + pose proof (round_stamps loop t0 (slow_tasks t0 n) (slow_tasks_returns t0 n)) as Hst.
      apply (fmap_Permutation
               (λ s : nat * outcome string,
                  (s.1, match s.2 with Returns v => v | Raises _ => "" end))) in Hst.
      rewrite <- !list_fmap_compose in Hst.
      rewrite slow_tasks_explicit, <- list_fmap_compose in Hst.
      rewrite slow_tasks_explicit. exact Hst.
Qed.

Lemma each_item_yielded_once_witness :
  ∃ f, consume None (batch_http_gen lifo_loop sample_client ["A"; "B"; "down"] 2) 0
         = (Go tt, f)
       ∧ length (emitted f) = 3.
Proof.
  destruct (each_item_yielded_once lifo_loop sample_client ["A"; "B"; "down"] 0)
    as (_ & Hbatch & _).
  destruct (Hbatch 2%Z) as (f & Hrun & Hlen & _); [lia|].
  exists f. split; [exact Hrun|exact Hlen].
Defined.

(** C6.  In [concurrent_http_gen], if the request for item [k] raises, the
    outcome yielded for [k] is a failure carrying the URL of [k] and the
    text of the exception, and every item whose own request returns a
    response still has its outcome yielded, the success made from that
    response; the consumer receives one outcome per item. *)
Theorem failure_isolation (loop : EventLoop) (client : AsyncClient)
    (urls : list string) (t0 : time) (k : nat) (url_k : string) (err : Exception) :
  urls !! k = Some url_k →
  request_of client t0 (100 * (k mod 3)) url_k = Raises err →
  ∃ f, consume None (concurrent_http_gen loop client urls) t0 = (Go tt, f)
       ∧ length (emitted f) = length urls
       ∧ ev_item <$> emitted f ≡ₚ seq 0 (length urls)
       ∧ (∃ e, e ∈ emitted f ∧ ev_item e = k
               ∧ ev_value e !! "url" = Some (VStr url_k)
               ∧ ev_value e !! "success" = Some (VBool false)
               ∧ ev_value e !! "error" = Some (VStr (exc_str err)))
       ∧ (∀ j url_j response,
            urls !! j = Some url_j →
            request_of client t0 (100 * (j mod 3)) url_j = Returns response →
            ∃ e, e ∈ emitted f ∧ ev_item e = j
                 ∧ ev_value e = reply_dict url_j (Returns response)
                 ∧ ev_value e !! "success" = Some (VBool true)).
Proof.
  intros Hk Herr.
  destruct (each_item_count loop client urls t0) as (Hlen & Hitems).
  eexists. split; [apply concurrent_http_run|]. cbn [emitted]. split_and!; [done..| |].
  - destruct (concurrent_http_event loop client urls t0 k url_k Hk) as (e & He & Hi & Hv).
    exists e. rewrite Hv, Herr. by split_and!.
  - intros j url_j response Hj Hok.
    destruct (concurrent_http_event loop client urls t0 j url_j Hj) as (e & He & Hi & Hv).
    exists e. rewrite Hv, Hok. by split_and!.
Qed.

Lemma failure_isolation_witness :
  ∃ f, consume None (concurrent_http_gen fifo_loop sample_client ["A"; "down"; "B"]) 0
         = (Go tt, f)
       ∧ length (emitted f) = 3.
Proof.
  destruct (failure_isolation fifo_loop sample_client ["A"; "down"; "B"] 0 1 "down"
              {| exc_class := "ConnectError"; exc_str := "connection refused" |})
    as (f & Hrun & Hlen & _); [reflexivity|reflexivity|].
  exists f. split; [exact Hrun|exact Hlen].
Defined.

(** C2.  [concurrent_http_gen] yields in completion order: of two items
    whose operations settle at different instants, the outcome of the one
    that settles first is yielded first, wherever the items stand in the
    input, and every outcome is handed over at the instant its operation
    settles.  With three items A, B, C whose operations take 0.3 s, 0.1 s
    and 0.2 s the outcomes come in the order B, C, A on every event loop:
    both when the three durations are the delays given to [fetch_url] under
    the loop over [as_completed], and in [concurrent_http_gen] itself, whose
    delays are fixed by the position, when the client makes up the
    difference. *)
Theorem yields_in_completion_order (loop : EventLoop) :
  (∀ (client : AsyncClient) (urls : list string) (t0 : time) (f : Frame dict)
     (p q : nat) (e1 e2 : Event dict) (o1 o2 : Op),
     (consume None (concurrent_http_gen loop client urls) t0).2 = f →
     emitted f !! p = Some e1 → emitted f !! q = Some e2 →
     o1 ∈ ops f → o2 ∈ ops f →
     op_item o1 = ev_item e1 → op_item o2 = ev_item e2 →
     op_settle o1 < op_settle o2 →
     p < q)
  ∧ (∀ (client : AsyncClient) (urls : list string) (t0 : time) (f : Frame dict)
       (p : nat) (e : Event dict),
       (consume None (concurrent_http_gen loop client urls) t0).2 = f →
       emitted f !! p = Some e →
       ∃ o, o ∈ ops f ∧ op_item o = ev_item e ∧ op_settle o = ev_time e)
  ∧ (let f := (consume None
                 (yield_as_completed loop
                    [ (0, fetch_url instant_client "A" 300);
                      (1, fetch_url instant_client "B" 100);
                      (2, fetch_url instant_client "C" 200) ]) 0).2 in
     op_settle <$> ops f = [300; 100; 200]
     ∧ (λ e, ev_value e !! "url") <$> emitted f
       = [Some (VStr "B"); Some (VStr "C"); Some (VStr "A")])
  ∧ (let f := (consume None (concurrent_http_gen loop sample_client ["A"; "B"; "C"]) 0).2 in
     op_settle <$> ops f = [300; 100; 200]
     ∧ (λ e, ev_value e !! "url") <$> emitted f
       = [Some (VStr "B"); Some (VStr "C"); Some (VStr "A")]).
Proof.
  split_and!; [| |done..].
  - intros client urls t0 f p q e1 e2 o1 o2 Hf Hp Hq Ho1 Ho2 Hi1 Hi2 Hlt.
    rewrite concurrent_http_run in Hf. cbn [snd] in Hf. subst f. cbn [emitted ops] in *.
    destruct (concurrent_event_task loop client urls t0 p e1 o1)
      as (tk1 & Hk1 & <-); [done..|].
    destruct (concurrent_event_task loop client urls t0 q e2 o2)
      as (tk2 & Hk2 & <-); [done..|].
    destruct (decide (p < q)) as [|Hge]; [done|].
    destruct (decide (q = p)) as [->|Hne].
    + rewrite Hk1 in Hk2. injection Hk2 as ->. lia.
    + pose proof (sorted_lookup _ q p tk2 tk1
                    (completion_order_sorted loop (concurrent_tasks client t0 urls))
                    Hk2 Hk1) as Hle.
      unfold settles_by in Hle. lia.
  - intros client urls t0 f p e Hf Hp.
    rewrite concurrent_http_run in Hf. cbn [snd] in Hf. subst f. cbn [emitted ops] in *.
    destruct (concurrent_event_on_time loop client urls t0 p e Hp) as (tk & Htk & Hi & Ht).
    exists (task_op tk). split_and!; [|done..]. by apply list_elem_of_fmap_2.
Qed.

Lemma yields_in_completion_order_witness :
  (λ e, ev_item e)
    <$> emitted (consume None (concurrent_http_gen fifo_loop sample_client ["A"; "B"; "C"]) 0).2
    = [1; 2; 0]
  ∧ 0 < 2.
Proof.
  split; [reflexivity|].
  destruct (yields_in_completion_order fifo_loop) as (Hpair & _).
  apply (Hpair sample_client ["A"; "B"; "C"] 0 _ 0 2
           {| ev_time := 100; ev_item := 1;
              ev_value := reply_dict "B" (request_of sample_client 0 100 "B") |}
           {| ev_time := 300; ev_item := 0;
              ev_value := reply_dict "A" (request_of sample_client 0 0 "A") |}
           {| op_item := 1; op_launch := 0; op_settle := 100 |}
           {| op_item := 0; op_launch := 0; op_settle := 300 |}
           eq_refl).
  - reflexivity.
  - reflexivity.
  - vm_compute. apply list_elem_of_In. simpl. tauto.
  - vm_compute. apply list_elem_of_In. simpl. tauto.
  - reflexivity.
  - reflexivity.
  - simpl. lia.
Defined.

(** C7, as the code has it.  When the consumer of [concurrent_http_gen]
    leaves after taking [k] outcomes, with [k] between one and the number of
    items, the generator stays suspended; the [k] outcomes it handed over
    are the first [k] of the full run, and nothing more is yielded.
    Nothing is cancelled: the log of operations is the log of the full run,
    every item's operation was started when the first value was asked for,
    and each one runs until the instant it settles. *)
Theorem abandoned_stream_keeps_running (loop : EventLoop) (client : AsyncClient)
    (urls : list string) (t0 : time) (k : nat) :
  0 < k ≤ length urls →
  ∃ f_all f,
    consume None (concurrent_http_gen loop client urls) t0 = (Go tt, f_all)
    ∧ consume (Some k) (concurrent_http_gen loop client urls) t0 = (Halt Suspend, f)
    ∧ emitted f = take k (emitted f_all)
    ∧ length (emitted f) = k
    ∧ ops f = ops f_all
    ∧ op_item <$> ops f = seq 0 (length urls)
    ∧ Forall (λ o, op_launch o = t0) (ops f).
Proof.
  intros [Hpos Hk]. destruct k as [|k]; [lia|].
  eexists _, _. split; [apply concurrent_http_run|].
  split; [apply concurrent_http_abandoned; lia|]. cbn [emitted ops].
  split_and!; [done| |done| |].
  - rewrite length_take. rewrite (proj1 (each_item_count loop client urls t0)). lia.
  - rewrite <- list_fmap_compose, concurrent_tasks_fetch. apply fetch_tasks_items.
  - apply Forall_fmap. rewrite concurrent_tasks_fetch.
    eapply Forall_impl; [apply fetch_tasks_timing|]. by intros tk [? _].
Qed.

Lemma abandoned_stream_keeps_running_witness :
  ∃ f, consume (Some 1) (concurrent_http_gen fifo_loop sample_client ["A"; "B"; "C"]) 0
         = (Halt Suspend, f)
       ∧ length (emitted f) = 1.
Proof.
  destruct (abandoned_stream_keeps_running fifo_loop sample_client ["A"; "B"; "C"] 0 1)
    as (f_all & f & _ & Hrun & _ & Hlen & _); [simpl; lia|].
  exists f. split; [exact Hrun|exact Hlen].
Defined.

(** C7 as stated fails: the consumer takes one outcome of four and leaves
    at instant 5; three operations are still running at that instant, and
    they are in the log with the instants at which they settle, 100, 200
    and 300. *)
Lemma abandoned_operations_still_running :
  let r := consume (Some 1)
             (concurrent_http_gen fifo_loop sample_client ["A"; "B"; "C"; "down"]) 0 in
  r.1 = Halt Suspend
  ∧ now r.2 = 5
  ∧ ¬ in_flight (ops r.2) (now r.2) = 0
  ∧ op_settle <$> ops r.2 = [300; 100; 200; 5].
Proof. vm_compute. split_and!; [done..|discriminate|done]. Qed.

(** C3, as the code has it.  With a batch size [L] of at least one, at most
    [L] operations are in flight at any instant.  Every item is started, in
    the order of the input; the first [L] items are started when the first
    value is asked for; an item of a later batch is started only when every
    operation of the batches before it has settled.  The window is refilled
    a whole batch at a time. *)
Theorem batch_window (loop : EventLoop) (client : AsyncClient) (urls : list string)
    (t0 : time) (batch_size : Z) :
  (1 ≤ batch_size)%Z →
  ∃ f, consume None (batch_http_gen loop client urls batch_size) t0 = (Go tt, f)
       ∧ (∀ t, in_flight (ops f) t ≤ Z.to_nat batch_size)
       ∧ op_item <$> ops f = seq 0 (length urls)
       ∧ (∀ o, o ∈ ops f → op_item o < Z.to_nat batch_size → op_launch o = t0)
       ∧ (∀ o1 o2, o1 ∈ ops f → o2 ∈ ops f →
                   batch_of batch_size (op_item o1) < batch_of batch_size (op_item o2) →
                   op_settle o1 ≤ op_launch o2).
Proof.
  intros Hsize.
  destruct (batch_http_run loop client urls (Z.to_nat batch_size) t0)
    as (f & ts & Hrun & Hinv & Hlen); [lia|].
  rewrite Z2Nat.id in Hrun by lia.
  exists f. split; [done|]. split_and!.
  - apply (bi_window _ _ _ _ _ _ _ Hinv).
  - rewrite (bi_ops _ _ _ _ _ _ _ Hinv), <- Hlen. apply list_eq. intros j.
    rewrite !list_lookup_fmap. destruct (ts !! j) as [tk|] eqn:Hj; simpl.
    + rewrite (inv_item client _ _ _ _ _ _ Hinv j tk Hj).
      symmetry. apply lookup_seq. split; [done|]. by eapply lookup_lt_Some.
    + symmetry. apply lookup_seq_ge. by apply lookup_ge_None.
  - intros o. rewrite (bi_ops _ _ _ _ _ _ _ Hinv).
    intros (tk & -> & Htk)%list_elem_of_fmap. by apply (bi_first _ _ _ _ _ _ _ Hinv).
  - intros o1 o2. rewrite (bi_ops _ _ _ _ _ _ _ Hinv).
    intros (x & -> & Hx)%list_elem_of_fmap (y & -> & Hy)%list_elem_of_fmap.
    by apply (bi_barrier _ _ _ _ _ _ _ Hinv).
Qed.

Lemma batch_window_witness :
  ∃ f, consume None (batch_http_gen fifo_loop sample_client ["A"; "B"; "C"] 2) 0 = (Go tt, f)
       ∧ in_flight (ops f) 50 ≤ 2.
Proof.
  destruct (batch_window fifo_loop sample_client ["A"; "B"; "C"] 0 2)
    as (f & Hrun & Hwin & _); [lia|].
  exists f. split; [exact Hrun|exact (Hwin 50)].
Defined.

(** C3 as stated fails: with items A, B, C and batch size 2, the operation
    for B settles at instant 50 while C has not been started, and nothing
    is started at that instant: C is started at 350, when A has settled. *)
Lemma batch_does_not_refill_on_completion :
  let f := (consume None (batch_http_gen fifo_loop sample_client ["A"; "B"; "C"] 2) 0).2 in
  ops f = [ {| op_item := 0; op_launch := 0; op_settle := 350 |};
            {| op_item := 1; op_launch := 0; op_settle := 50 |};
            {| op_item := 2; op_launch := 350; op_settle := 400 |} ]
  ∧ ¬ refills_on_completion (ops f).
Proof.
  assert ((consume None (batch_http_gen fifo_loop sample_client ["A"; "B"; "C"] 2) 0).2
          = Build_Frame 400 None
              (emitted (consume None
                          (batch_http_gen fifo_loop sample_client ["A"; "B"; "C"] 2) 0).2)
              [ {| op_item := 0; op_launch := 0; op_settle := 350 |};
                {| op_item := 1; op_launch := 0; op_settle := 50 |};
                {| op_item := 2; op_launch := 350; op_settle := 400 |} ]) as Hf
    by (vm_compute; reflexivity).
  cbn zeta. rewrite Hf. cbn [ops]. split; [done|].
  intros Hrefill.
  destruct (Hrefill {| op_item := 1; op_launch := 0; op_settle := 50 |}
                    {| op_item := 2; op_launch := 350; op_settle := 400 |})
    as (o & Ho & Hlaunch).
  - apply list_elem_of_In. simpl. tauto.
  - apply list_elem_of_In. simpl. tauto.
  - simpl. lia.
  - apply list_elem_of_In in Ho. simpl in Ho, Hlaunch.
    destruct Ho as [<-|[<-|[<-|[]]]]; simpl in Hlaunch; lia.
Qed.

(** C9.  With a batch size [B] of at least one, [batch_http_gen] cuts the
    input into consecutive batches of at most [B] items, batch [k] holding
    the items from [k * B] on.  Every item is yielded once; no outcome of a
    later batch is yielded before an outcome of an earlier batch; and an
    item of a later batch is started only after every operation of an
    earlier batch has settled and every outcome of an earlier batch has
    been yielded. *)
Theorem batch_boundaries (loop : EventLoop) (client : AsyncClient) (urls : list string)
    (t0 : time) (batch_size : Z) :
  (1 ≤ batch_size)%Z →
  (let batches := (λ i, slice urls i (i + batch_size))
                    <$> range_items 0 (Z.of_nat (length urls)) batch_size in
   concat batches = urls
   ∧ Forall (λ batch, 0 < length batch ≤ Z.to_nat batch_size) batches
   ∧ ∀ k batch, batches !! k = Some batch →
                batch = take (Z.to_nat batch_size) (drop (k * Z.to_nat batch_size) urls))
  ∧ ∃ f, consume None (batch_http_gen loop client urls batch_size) t0 = (Go tt, f)
         ∧ ev_item <$> emitted f ≡ₚ seq 0 (length urls)
         ∧ (∀ p q e1 e2, emitted f !! p = Some e1 → emitted f !! q = Some e2 →
                         batch_of batch_size (ev_item e1) < batch_of batch_size (ev_item e2) →
                         p < q)
         ∧ (∀ o1 o2, o1 ∈ ops f → o2 ∈ ops f →
                     batch_of batch_size (op_item o1) < batch_of batch_size (op_item o2) →
                     op_settle o1 ≤ op_launch o2)
         ∧ (∀ e o, e ∈ emitted f → o ∈ ops f →
                   batch_of batch_size (ev_item e) < batch_of batch_size (op_item o) →
                   ev_time e ≤ op_launch o).
Proof.
  intros Hsize. split.
  - pose proof (batches_partition urls (Z.to_nat batch_size)) as Hpart.
    rewrite Z2Nat.id in Hpart by lia. apply Hpart. lia.
  - destruct (batch_http_run loop client urls (Z.to_nat batch_size) t0)
      as (f & ts & Hrun & Hinv & Hlen); [lia|].
    rewrite Z2Nat.id in Hrun by lia.
    exists f. split; [done|]. split_and!.
    + pose proof (bi_stamps _ _ _ _ _ _ _ Hinv) as Hst.
      apply (fmap_Permutation fst) in Hst. rewrite <- !list_fmap_compose in Hst.
      etransitivity; [exact Hst|]. rewrite <- Hlen.
      replace (seq 0 (length ts)) with ((fst ∘ task_stamp) <$> ts); [done|].
      apply list_eq. intros j. rewrite list_lookup_fmap.
      destruct (ts !! j) as [tk|] eqn:Hj; simpl.
      * rewrite (inv_item client _ _ _ _ _ _ Hinv j tk Hj).
        symmetry. apply lookup_seq. split; [done|]. by eapply lookup_lt_Some.
      * symmetry. apply lookup_seq_ge. by apply lookup_ge_None.
    + apply (bi_order _ _ _ _ _ _ _ Hinv).
    + intros o1 o2. rewrite (bi_ops _ _ _ _ _ _ _ Hinv).
      intros (x & -> & Hx)%list_elem_of_fmap (y & -> & Hy)%list_elem_of_fmap.
      by apply (bi_barrier _ _ _ _ _ _ _ Hinv).
    + intros e o He. rewrite (bi_ops _ _ _ _ _ _ _ Hinv).
      intros (y & -> & Hy)%list_elem_of_fmap.
      by apply (bi_yield_barrier _ _ _ _ _ _ _ Hinv).
Qed.

Lemma batch_boundaries_witness :
  ∃ f, consume None (batch_http_gen lifo_loop sample_client ["A"; "B"; "C"; "D"; "E"] 2) 0
         = (Go tt, f)
       ∧ ev_item <$> emitted f ≡ₚ [0; 1; 2; 3; 4].
Proof.
  destruct (batch_boundaries lifo_loop sample_client ["A"; "B"; "C"; "D"; "E"] 0 2)
    as (_ & f & Hrun & Hitems & _); [lia|].
  exists f. split; [exact Hrun|exact Hitems].
Defined.

(** * Further properties *)

(** ** The sequential loop *)

Section relays.
Context {Y : Type}.
Implicit Types (calls : list (nat * Coro Y)) (f : Frame Y) (t : time).

Lemma create_task_item t (ic : nat * Coro Y) : op_item (task_op (create_task t ic)) = ic.1.
Proof. unfold create_task. by destruct (ic.2 t). Qed.

Lemma create_task_launch t (ic : nat * Coro Y) : op_launch (task_op (create_task t ic)) = t.
Proof. unfold create_task. by destruct (ic.2 t). Qed.

Lemma create_task_settle t (ic : nat * Coro Y) :
  op_settle (task_op (create_task t ic)) = (ic.2 t).1.
Proof. unfold create_task. by destruct (ic.2 t). Qed.

Lemma relay_nil f : relay [] f = (Go tt, f).
Proof. done. Qed.

(** One turn of the loop, when the call returns. *)
Lemma relay_cons (ic : nat * Coro Y) calls f v :
  task_result (create_task (now f) ic) = Returns v →
  relay (ic :: calls) f =
    let tk := create_task (now f) ic in
    let t' := op_settle (task_op tk) in
    let out := emitted f ++ [Build_Event t' ic.1 v] in
    let log := ops f ++ [task_op tk] in
    match demand f with
    | None => relay calls (Build_Frame t' None out log)
    | Some (S (S k)) => relay calls (Build_Frame t' (Some (S k)) out log)
    | Some _ => (Halt Suspend, Build_Frame t' (Some 0) out log)
    end.
Proof.
  unfold create_task. intros Hv. unfold relay. simpl for_each.
  unfold gbind at 1 2, await, yield_. destruct (ic.2 (now f)) as [t' r].
  simpl in Hv. subst r. simpl. by destruct (demand f) as [[|[|k]]|].
Qed.

Lemma last_settle_cons t (tk : Task Y) (tasks : list (Task Y)) :
  last_settle t (tk :: tasks) = last_settle (op_settle (task_op tk)) tasks.
Proof. done. Qed.

Lemma relay_log_length t calls : length (relay_log t calls) = length calls.
Proof. revert t. induction calls as [|ic calls IH]; intros t; simpl; [done|]. by rewrite IH. Qed.

(** A consumer that iterates to the end. *)
Lemma relay_all calls f :
  Forall returns (relay_log (now f) calls) → demand f = None →
  relay calls f =
    (Go tt, Build_Frame (last_settle (now f) (relay_log (now f) calls)) None
              (emitted f ++ on_settle (relay_log (now f) calls))
              (ops f ++ (task_op <$> relay_log (now f) calls))).
Proof.
  revert f. induction calls as [|ic calls IH]; intros f Hret Hd.
  - rewrite relay_nil. destruct f; simpl in *; subst. by rewrite !app_nil_r.
  - cbn [relay_log] in *. apply Forall_cons in Hret as [[v Hv] Hret].
    rewrite (relay_cons _ _ _ v Hv), Hd. cbn zeta.
    rewrite IH; [|done..]. cbn [now emitted ops on_settle fmap list_fmap].
    rewrite Hv, last_settle_cons, create_task_item, <- !app_assoc. done.
Qed.

(** A consumer that takes [k + 1] values and leaves while calls remain. *)
Lemma relay_abandoned calls f k :
  Forall returns (relay_log (now f) calls) → demand f = Some (S k) → k < length calls →
  relay calls f =
    (Halt Suspend,
     Build_Frame (last_settle (now f) (take (S k) (relay_log (now f) calls))) (Some 0)
       (emitted f ++ take (S k) (on_settle (relay_log (now f) calls)))
       (ops f ++ (task_op <$> take (S k) (relay_log (now f) calls)))).
Proof.
  revert f k. induction calls as [|ic calls IH]; intros f k Hret Hd Hk.
  - simpl in Hk. lia.
  - cbn [relay_log] in *. apply Forall_cons in Hret as [[v Hv] Hret].
    rewrite (relay_cons _ _ _ v Hv), Hd. cbn zeta. cbn [on_settle].
    rewrite Hv, create_task_item.
    destruct k as [|k].
    + done.
    + simpl in Hk. rewrite (IH _ k); [|done|done|lia].
      cbn [now emitted ops take fmap list_fmap].
      by rewrite last_settle_cons, <- !app_assoc.
Qed.

Lemma on_settle_length (tasks : list (Task Y)) :
  Forall returns tasks → length (on_settle tasks) = length tasks.
Proof. induction 1 as [|tk tasks [v Hv] _ IH]; simpl; [done|]. rewrite Hv. simpl. by rewrite IH. Qed.

Lemma on_settle_lookup (tasks : list (Task Y)) (j : nat) (tk : Task Y) (v : Y) :
  Forall returns tasks → tasks !! j = Some tk → task_result tk = Returns v →
  on_settle tasks !! j
    = Some (Build_Event (op_settle (task_op tk)) (op_item (task_op tk)) v).
Proof.
  intros Hret. revert j. induction Hret as [|tk' tasks [v' Hv'] _ IH]; intros j Hj Hv; [done|].
  simpl. rewrite Hv'. destruct j as [|j]; simpl in *.
  - injection Hj as ->. rewrite Hv in Hv'. by injection Hv' as ->.
  - by apply IH.
Qed.

(** Calls that do not settle before they start make a chain. *)
Lemma relay_log_chained t calls :
  Forall (λ ic, forward ic.2) calls → chained t (task_op <$> relay_log t calls).
Proof.
  intros Hfw. revert t. induction Hfw as [|ic calls Hic _ IH]; intros t; [done|].
  cbn [relay_log fmap list_fmap chained].
  split_and!; [apply create_task_launch| |apply IH].
  rewrite create_task_settle. apply Hic.
Qed.

End relays.

Section chains.
Implicit Types (os : list Op) (t : time).

Lemma chained_later t os : chained t os → Forall (λ o, t ≤ op_launch o) os.
Proof.
  revert t. induction os as [|o os IH]; intros t; [done|].
  intros (Hl & Hs & Hrest). constructor; [lia|].
  eapply Forall_impl; [by apply IH|]. simpl. intros; lia.
Qed.


Lemma chained_take t os (k : nat) : chained t os → chained t (take k os).
Proof.
  revert t k. induction os as [|o os IH]; intros t [|k]; simpl; try done.
  intros (? & ? & ?). split_and!; [done..|]. by apply IH.
Qed.

End chains.

(** ** The sequential generators as such loops *)

Section loops_more.
Context {Y : Type}.

Lemma for_each_fmap {A B : Type} (g : A → B) (l : list A) (body : B → Gen Y unit)
    (f : Frame Y) :
  for_each (g <$> l) body f = for_each l (body ∘ g) f.
Proof.
  revert f. induction l as [|x l IH]; intros f; [done|].
  cbn [fmap list_fmap for_each]. unfold gbind. simpl.
  destruct (body (g x) f) as [[[]|s] f']; [apply IH|done].
Qed.

Lemma for_each_ext {A : Type} (l : list A) (b1 b2 : A → Gen Y unit) (f : Frame Y) :
  (∀ x f', b1 x f' = b2 x f') → for_each l b1 f = for_each l b2 f.
Proof.
  intros Hb. revert f. induction l as [|x l IH]; intros f; [done|].
  simpl. unfold gbind. rewrite Hb. destruct (b2 x f) as [[[]|s] f']; [apply IH|done].
Qed.

Lemma for_each_halt {A : Type} (x : A) (l : list A) (body : A → Gen Y unit)
    (f f' : Frame Y) (s : signal) :
  body x f = (Halt s, f') → for_each (x :: l) body f = (Halt s, f').
Proof. intros Hx. simpl. unfold gbind. by rewrite Hx. Qed.

Lemma gbind_go {X X' : Type} (g : Gen Y X) (h : X → Gen Y X') (f f' : Frame Y) (x : X) :
  g f = (Go x, f') → gbind g h f = h x f'.
Proof. intros Hg. unfold gbind. by rewrite Hg. Qed.

Lemma relay_log_items (t : time) (calls : list (nat * Coro Y)) :
  (op_item ∘ task_op) <$> relay_log t calls = calls.*1.
Proof.
  revert t. induction calls as [|ic calls IH]; intros t; [done|].
  cbn [relay_log fmap list_fmap]. simpl. by rewrite create_task_item, IH.
Qed.

(** Calls that each take [d] and return a value: the log of the loop. *)
Lemma relay_log_ticking (d : time) (v : nat → Y) (c : nat → Coro Y) (t : time) (m : nat) :
  (∀ j t', c j t' = (t' + d, Returns (v j))) →
  relay_log t ((λ j, (j, c j)) <$> seq 0 m) = ticking_task t d v <$> seq 0 m.
Proof.
  intros Hc.
  assert (∀ a t', relay_log (t' + d * a) ((λ j, (j, c j)) <$> seq a m)
                  = ticking_task t' d v <$> seq a m) as Hgen.
  { induction m as [|m IH]; intros a t'; [done|].
    cbn [seq fmap list_fmap relay_log]. rewrite create_task_settle.
    cbn [fst snd]. rewrite Hc. cbn [fst]. f_equal.
    - unfold create_task. cbn [fst snd]. rewrite Hc. unfold ticking_task.
      do 2 f_equal. lia.
    - replace (t' + d * a + d) with (t' + d * S a) by lia. apply IH. }
  specialize (Hgen 0 t). by rewrite Nat.mul_0_r, Nat.add_0_r in Hgen.
Qed.

Lemma on_settle_fmap {A : Type} (F : A → Task Y) (val : A → Y) (l : list A) :
  (∀ x, task_result (F x) = Returns (val x)) →
  on_settle (F <$> l)
    = (λ x, Build_Event (op_settle (task_op (F x))) (op_item (task_op (F x))) (val x)) <$> l.
Proof.
  intros HF. induction l as [|x l IH]; [done|].
  cbn [fmap list_fmap on_settle]. rewrite HF. f_equal. apply IH.
Qed.

Lemma last_settle_ticking (t d : time) (v : nat → Y) (m : nat) :
  last_settle t (ticking_task t d v <$> seq 0 m) = t + d * m.
Proof.
  destruct m as [|m]; [simpl; lia|].
  rewrite seq_S, fmap_app. unfold last_settle. rewrite foldl_app. simpl. lia.
Qed.

Lemma ticking_returns (t d : time) (v : nat → Y) (l : list nat) :
  Forall returns (ticking_task t d v <$> l).
Proof. apply Forall_fmap, Forall_forall. intros j _. by eexists. Qed.

End loops_more.

Section sequential_runs.
Context (client : AsyncClient).

Lemma sequential_http_relay (urls : list string) (f : Frame dict) :
  sequential_http_gen client urls f = relay (sequential_calls client urls) f.
Proof.
  unfold sequential_http_gen, relay, sequential_calls. rewrite for_each_fmap.
  apply for_each_ext. by intros [i url] f'.
Qed.

Lemma sequential_gen_relay (n : Z) (f : Frame string) :
  sequential_gen n f = relay (slow_calls n) f.
Proof. unfold sequential_gen, relay, slow_calls. by rewrite for_each_fmap. Qed.

Lemma count_async_relay (n : Z) (f : Frame string) :
  count_async n f = relay (count_calls n) f.
Proof.
  unfold count_async, relay, count_calls. rewrite for_each_fmap.
  apply for_each_ext. intros i f'. unfold gbind, await, sleep, bind, ret. simpl. done.
Qed.

Lemma slow_calls_seq (n : Z) :
  slow_calls n = (λ j : nat, (j, slow_task (Z.of_nat j))) <$> seq 0 (Z.to_nat n).
Proof.
  unfold slow_calls. rewrite range_items_unit, <- list_fmap_compose.
  apply list_fmap_ext. intros _ j _. simpl. by rewrite Nat2Z.id.
Qed.

Lemma count_calls_seq (n : Z) :
  count_calls n
  = (λ j : nat, (j, (sleep 100 ;; ret ("Count: " +:+ pretty (Z.of_nat j + 1)%Z))%coro))
      <$> seq 0 (Z.to_nat n).
Proof.
  unfold count_calls. rewrite range_items_unit, <- list_fmap_compose.
  apply list_fmap_ext. intros _ j _. simpl. by rewrite Nat2Z.id.
Qed.

(** The calls of [sequential_http_gen], item by item. *)
Lemma sequential_calls_lookup (urls : list string) (j : nat) :
  sequential_calls client urls !! j
  = (λ url, (j, fetch_url client url (100 * (j mod 3)))) <$> urls !! j.
Proof.
  unfold sequential_calls. rewrite list_lookup_fmap, enumerate_lookup.
  by destruct (urls !! j).
Qed.

Lemma sequential_calls_length (urls : list string) :
  length (sequential_calls client urls) = length urls.
Proof. unfold sequential_calls. by rewrite length_fmap, enumerate_length. Qed.

(** The task at each place of the log of a loop is the task of the call at
    that place, started at some instant. *)
Lemma relay_log_lookup {Y : Type} (t : time) (calls : list (nat * Coro Y)) (j : nat)
    (tk : Task Y) :
  relay_log t calls !! j = Some tk →
  ∃ ic tj, calls !! j = Some ic ∧ tk = create_task tj ic.
Proof.
  revert t j. induction calls as [|ic calls IH]; intros t j; [done|].
  cbn [relay_log]. destruct j as [|j]; simpl.
  - intros [= <-]. by exists ic, t.
  - apply IH.
Qed.

Lemma sequential_log_lookup (urls : list string) (t : time) (j : nat) (tk : Task dict) :
  relay_log t (sequential_calls client urls) !! j = Some tk →
  ∃ url tj, urls !! j = Some url ∧ tk = fetch_task client tj j url (100 * (j mod 3)).
Proof.
  intros (ic & tj & Hic & ->)%relay_log_lookup.
  rewrite sequential_calls_lookup in Hic. apply fmap_Some in Hic as (url & Hurl & ->).
  exists url, tj. split; [done|]. apply create_fetch_task.
Qed.

Lemma sequential_log_returns (urls : list string) (t : time) :
  Forall returns (relay_log t (sequential_calls client urls)).
Proof.
  apply Forall_lookup. intros j tk (url & tj & _ & ->)%sequential_log_lookup. by eexists.
Qed.

Lemma sequential_calls_forward (urls : list string) :
  Forall (λ ic, forward ic.2) (sequential_calls client urls).
Proof.
  apply Forall_lookup. intros j ic. rewrite sequential_calls_lookup.
  intros (url & _ & ->)%fmap_Some. intros t. simpl. rewrite fetch_url_run. simpl. lia.
Qed.

End sequential_runs.

Section chain_ends.
Context {Y : Type}.
Implicit Types (tasks : list (Task Y)) (t : time).

Lemma last_settle_later t tasks :
  chained t (task_op <$> tasks) → t ≤ last_settle t tasks.
Proof.
  revert t. induction tasks as [|tk tasks IH]; intros t; [done|].
  cbn [fmap list_fmap chained]. intros (_ & Hs & Hrest).
  rewrite last_settle_cons. specialize (IH _ Hrest). lia.
Qed.

(** When a chain has come to its end every operation of it has settled. *)
Lemma chained_settled t tasks :
  chained t (task_op <$> tasks) →
  Forall (λ tk, op_settle (task_op tk) ≤ last_settle t tasks) tasks.
Proof.
  revert t. induction tasks as [|tk tasks IH]; intros t; [done|].
  cbn [fmap list_fmap chained]. intros (_ & Hs & Hrest).
  rewrite last_settle_cons. constructor; [by apply last_settle_later|by apply IH].
Qed.

Lemma chained_idle t tasks :
  chained t (task_op <$> tasks) → in_flight (task_op <$> tasks) (last_settle t tasks) = 0.
Proof.
  intros Hch. apply in_flight_none, Forall_fmap.
  eapply Forall_impl; [by apply chained_settled|].
  simpl. intros tk Htk. by apply not_running_settled.
Qed.

End chain_ends.


Section sequential_http.
Context (client : AsyncClient).

(** What the run of [sequential_http_gen] comes to. *)
Lemma sequential_http_run (urls : list string) (t0 : time) :
  consume None (sequential_http_gen client urls) t0 =
    (Go tt,
     Build_Frame (last_settle t0 (relay_log t0 (sequential_calls client urls))) None
       (on_settle (relay_log t0 (sequential_calls client urls)))
       (task_op <$> relay_log t0 (sequential_calls client urls))).
Proof.
  unfold consume. rewrite sequential_http_relay.
  etransitivity; [apply relay_all; [apply sequential_log_returns|done]|done].
Qed.

Lemma sequential_http_leave (urls : list string) (t0 : time) (k : nat) :
  k < length urls →
  consume (Some (S k)) (sequential_http_gen client urls) t0 =
    (Halt Suspend,
     Build_Frame
       (last_settle t0 (take (S k) (relay_log t0 (sequential_calls client urls)))) (Some 0)
       (take (S k) (on_settle (relay_log t0 (sequential_calls client urls))))
       (task_op <$> take (S k) (relay_log t0 (sequential_calls client urls)))).
Proof.
  intros Hk. unfold consume. rewrite sequential_http_relay.
  etransitivity; [apply (relay_abandoned _ _ k);
                  [apply sequential_log_returns|done|by rewrite sequential_calls_length]
                 |done].
Qed.

(** Item by item: the outcome and the operation at place [j] are those of
    item [j]. *)
Lemma sequential_http_place (urls : list string) (t0 : time) (j : nat) (url : string) :
  urls !! j = Some url →
  ∃ tj,
    relay_log t0 (sequential_calls client urls) !! j
      = Some (fetch_task client tj j url (100 * (j mod 3)))
    ∧ on_settle (relay_log t0 (sequential_calls client urls)) !! j
      = Some (Build_Event
                (op_settle (task_op (fetch_task client tj j url (100 * (j mod 3))))) j
                (reply_dict url (request_of client tj (100 * (j mod 3)) url))).
Proof.
  intros Hj.
  destruct (relay_log t0 (sequential_calls client urls) !! j) as [tk|] eqn:Htk.
  - pose proof Htk as (url' & tj & Hurl' & ->)%sequential_log_lookup.
    assert (url' = url) as -> by congruence.
    exists tj. split; [done|].
    by apply (on_settle_lookup _ j _ _ (sequential_log_returns client urls t0) Htk).
  - apply lookup_ge_None in Htk.
    rewrite relay_log_length, sequential_calls_length in Htk.
    apply lookup_lt_Some in Hj. lia.
Qed.

End sequential_http.

(** ** When a round ends *)

Section round_ends.
Context {Y : Type}.
Implicit Types (tasks : list (Task Y)) (t : time).

Lemma clock_after_bound t tasks (M : time) :
  t ≤ M → Forall (λ tk, op_settle (task_op tk) ≤ M) tasks → clock_after t tasks ≤ M.
Proof.
  intros Ht Hall. revert t Ht. induction Hall as [|tk tasks Htk _ IH]; intros t Ht; [done|].
  rewrite clock_after_cons. apply IH. lia.
Qed.



End round_ends.

Section more_logs.


End more_logs.

Section simple_runs.

Lemma slow_log (n : Z) (t0 : time) :
  relay_log t0 (slow_calls n)
  = ticking_task t0 100 (λ j, "Task " +:+ pretty (Z.of_nat j) +:+ " done")
      <$> seq 0 (Z.to_nat n).
Proof.
  rewrite slow_calls_seq.
  by apply (relay_log_ticking 100 _ (λ j, slow_task (Z.of_nat j))).
Qed.

Lemma sequential_gen_run (n : Z) (t0 : time) :
  consume None (sequential_gen n) t0 =
    (Go tt,
     Build_Frame (t0 + 100 * Z.to_nat n) None
       ((λ j : nat, Build_Event (t0 + 100 * (j + 1)) j
                      ("Task " +:+ pretty (Z.of_nat j) +:+ " done"))
          <$> seq 0 (Z.to_nat n))
       (task_op <$> relay_log t0 (slow_calls n))).
Proof.
  unfold consume. rewrite sequential_gen_relay.
  rewrite relay_all; [|cbn [start now]; rewrite slow_log; apply ticking_returns|done].
  cbn [start now emitted ops app]. rewrite slow_log at 1 2.
  rewrite last_settle_ticking.
  rewrite (on_settle_fmap _ (λ j, "Task " +:+ pretty (Z.of_nat j) +:+ " done")) by done.
  done.
Qed.

Lemma concurrent_gen_clock (loop : EventLoop) (n : Z) (t0 : time) :
  (1 ≤ n)%Z → clock_after t0 (completion_order loop (slow_tasks t0 n)) = t0 + 100.
Proof.
  intros Hn.
  assert (Forall (λ tk : Task string, op_settle (task_op tk) = t0 + 100) (slow_tasks t0 n))
    as Hall.
  { rewrite slow_tasks_explicit. apply Forall_fmap, Forall_forall. by intros j _. }
  assert (length (slow_tasks t0 n) = Z.to_nat n) as Hlen
    by by rewrite slow_tasks_explicit, length_fmap, length_seq.
  apply Nat.le_antisymm.
  - apply clock_after_bound; [lia|]. rewrite completion_order_perm.
    eapply Forall_impl; [exact Hall|]. simpl. by intros tk ->.
  - destruct (slow_tasks t0 n) as [|tk tasks] eqn:Htasks; [simpl in Hlen; lia|].
    apply Forall_cons in Hall as [<- _]. rewrite <- Htasks.
    apply round_settled. rewrite Htasks. by left.
Qed.

End simple_runs.

Section http_facts.
Context (loop : EventLoop) (client : AsyncClient).



Lemma reliable_reply (url : string) (t delay : time) :
  reliable client →
  reply_dict url (request_of client t delay url) !! "success" = Some (VBool true).
Proof.
  intros Hrel. unfold request_of.
  by destruct (Hrel url request_timeout (t + delay)) as [response ->].
Qed.

(** With a steady client an item takes as long in one run as in another. *)
Lemma steady_settle (url : string) (item : nat) (delay t t' : time) :
  steady client → t ≤ t' →
  op_settle (task_op (fetch_task client t item url delay))
  ≤ op_settle (task_op (fetch_task client t' item url delay)).
Proof.
  intros Hst Ht. simpl.
  rewrite (Hst url request_timeout (t + delay) (t' + delay)). lia.
Qed.

End http_facts.

(** ** Laziness *)

Section laziness.
Context {Y : Type}.
Implicit Types (f : Frame Y).

Lemma lazy_gret {X : Type} (x : X) : lazy (@gret Y X x).
Proof.
  intros f k Hd. exists (Go x), f, [], []. rewrite !app_nil_r.
  split_and!; [done..|]. left. split; [done|simpl; lia].
Qed.

Lemma lazy_eval {X : Type} (r : outcome X) : lazy (@eval Y X r).
Proof.
  intros f k Hd. unfold eval.
  exists (match r with Returns x => Go x | Raises e => Halt (Raise e) end), f, [], [].
  rewrite !app_nil_r. split_and!; [by destruct r|done..|].
  left. split; [by destruct r|simpl; lia].
Qed.

Lemma lazy_yield (item : nat) (v : Y) : lazy (yield_ item v).
Proof.
  intros f k Hd.
  exists (Go tt),
    (Build_Frame (now f) None (emitted f ++ [Build_Event (now f) item v]) (ops f)),
    [Build_Event (now f) item v], [].
  split; [by unfold yield_; rewrite Hd|].
  split; [done|]. split; [done|]. split; [by simpl; rewrite app_nil_r|].
  unfold yield_, with_demand. cbn [demand now emitted ops length].
  destruct k as [|k].
  - right. eexists. split; [done|]. cbn [emitted ops].
    split_and!; [done|simpl; lia|reflexivity|reflexivity].
  - left. split; [done|lia].
Qed.

Lemma lazy_await {A : Type} (item : nat) (c : Coro A) : lazy (@await Y A item c).
Proof.
  intros f k Hd. unfold await, with_demand. cbn [now demand emitted ops].
  destruct (c (now f)) as [t' r]. rewrite Hd.
  exists (match r with Returns a => Go a | Raises e => Halt (Raise e) end),
    (Build_Frame t' None (emitted f)
       (ops f ++ [{| op_item := item; op_launch := now f; op_settle := t' |}])),
    [], [{| op_item := item; op_launch := now f; op_settle := t' |}].
  split; [by destruct r|].
  split; [done|]. split; [by simpl; rewrite app_nil_r|]. split; [done|].
  left. split; [by destruct r|simpl; lia].
Qed.

Lemma lazy_await_task (tk : Task Y) : lazy (@await_task Y Y tk).
Proof.
  intros f k Hd. unfold await_task, with_demand. cbn [now demand emitted ops]. rewrite Hd.
  exists (match task_result tk with Returns a => Go a | Raises e => Halt (Raise e) end),
    (Build_Frame (now f `max` op_settle (task_op tk)) None (emitted f) (ops f)), [], [].
  split; [by destruct (task_result tk)|].
  split; [done|]. split; [by simpl; rewrite app_nil_r|].
  split; [by simpl; rewrite app_nil_r|].
  left. split; [by destruct (task_result tk)|simpl; lia].
Qed.

Lemma lazy_as_completed (loop : EventLoop) (coros : list (nat * Coro Y)) :
  lazy (@as_completed Y Y loop coros).
Proof.
  intros f k Hd. unfold as_completed, with_demand. cbn [now demand emitted ops]. rewrite Hd.
  eexists _, (Build_Frame _ _ _ _), [], _.
  split; [done|]. split; [done|]. split; [by simpl; rewrite app_nil_r|]. split; [done|].
  left. split; [done|simpl; lia].
Qed.

Lemma lazy_gbind {X X' : Type} (g : Gen Y X) (h : X → Gen Y X') :
  lazy g → (∀ x, lazy (h x)) → lazy (gbind g h).
Proof.
  intros Hg Hh f k Hd.
  destruct (Hg f k Hd) as (r & f1 & es & os & Hrun & Hd1 & Hes & Hos & Hcase).
  unfold gbind. rewrite Hrun. destruct r as [x|s].
  - destruct Hcase as [[Hrun' Hle]|(f1' & Hrun' & Hes' & Hle & Hpre & Hpre')].
    + destruct (Hh x f1 (k - length es) Hd1)
        as (r2 & f2 & es2 & os2 & Hrun2 & Hd2 & Hes2 & Hos2 & Hcase2).
      exists r2, f2, (es ++ es2), (os ++ os2).
      split_and!; [done|done|by rewrite Hes2, Hes, app_assoc
                  |by rewrite Hos2, Hos, app_assoc|].
      rewrite Hrun'. replace (S k - length es) with (S (k - length es)) by lia.
      destruct Hcase2 as [[Hrun2' Hle2]|(f2' & Hrun2' & Hes2' & Hle2 & Hpre2 & Hpre2')].
      * left. rewrite Hrun2', length_app. split; [|lia]. do 3 f_equal. lia.
      * right. exists f2'. split_and!; [done| | | |done].
        -- rewrite Hes2', Hes, <- app_assoc. f_equal.
           rewrite take_app_ge by lia. do 2 f_equal. lia.
        -- rewrite length_app. lia.
        -- etransitivity; [|exact Hpre2]. rewrite Hos. by apply prefix_app_r.
    + destruct (Hh x f1 0 Hd1) as (r2 & f2 & es2 & os2 & Hrun2 & Hd2 & Hes2 & Hos2 & _).
      exists r2, f2, (es ++ es2), (os ++ os2).
      split_and!; [done|done|by rewrite Hes2, Hes, app_assoc
                  |by rewrite Hos2, Hos, app_assoc|].
      right. exists f1'. rewrite Hrun'. split_and!; [done| | |done|].
      * by rewrite Hes', take_app_le.
      * rewrite length_app. lia.
      * etransitivity; [exact Hpre'|]. rewrite Hos2. by apply prefix_app_r.
  - exists (Halt s), f1, es, os. split_and!; [done..|].
    destruct Hcase as [[Hrun' Hle]|(f1' & Hrun' & Hes' & Hle & Hpre & Hpre')].
    + left. by rewrite Hrun'.
    + right. exists f1'. by rewrite Hrun'.
Qed.

Lemma lazy_for_each {A : Type} (l : list A) (body : A → Gen Y unit) :
  (∀ x, lazy (body x)) → lazy (for_each l body).
Proof.
  intros Hbody. induction l as [|x l IH]; [apply lazy_gret|].
  simpl. apply lazy_gbind; [apply Hbody|]. by intros _.
Qed.

(** What laziness gives the consumer. *)
Lemma lazy_served (g : Gen Y unit) (k : nat) (t0 : time) : lazy g → served_prefix k t0 g.
Proof.
  intros Hg. destruct k as [|k].
  - split; [by rewrite take_0|apply prefix_nil].
  - destruct (Hg (start t0 None) k) as (r & f1 & es & os & Hrun & _ & Hes & Hos & Hcase);
      [done|].
    unfold served_prefix, consume. rewrite Hrun.
    change (@start Y t0 (Some (S k))) with (@with_demand Y (Some (S k)) (start t0 None)).
    destruct Hcase as [[Hrun' Hle]|(f1' & Hrun' & Hes' & Hle & Hpre & Hpre')];
      rewrite Hrun'; cbn [snd]; simpl in Hes, Hos.
    + cbn [with_demand emitted ops]. split; [|done].
      rewrite Hes. by rewrite take_ge by lia.
    + simpl in Hes'. rewrite Hes', Hes. done.
Qed.

End laziness.

Section lazy_generators.
Context (loop : EventLoop) (client : AsyncClient).

Lemma lazy_drain {Y : Type} (done : list (Task Y)) : lazy (drain done).
Proof.
  apply lazy_for_each. intros tk. apply lazy_gbind; [apply lazy_await_task|].
  intros v. apply lazy_yield.
Qed.

Lemma lazy_sequential_gen (n : Z) : lazy (sequential_gen n).
Proof.
  apply lazy_for_each. intros i. apply lazy_gbind; [apply lazy_await|].
  intros v. apply lazy_yield.
Qed.

Lemma lazy_count_async (n : Z) : lazy (count_async n).
Proof.
  apply lazy_for_each. intros i. apply lazy_gbind; [apply lazy_await|].
  intros v. apply lazy_yield.
Qed.

Lemma lazy_concurrent_gen (n : Z) : lazy (concurrent_gen loop n).
Proof. apply lazy_gbind; [apply lazy_as_completed|]. intros done. apply lazy_drain. Qed.

Lemma lazy_sequential_http_gen (urls : list string) : lazy (sequential_http_gen client urls).
Proof.
  apply lazy_for_each. intros [i url]. apply lazy_gbind; [apply lazy_await|].
  intros v. apply lazy_yield.
Qed.

Lemma lazy_concurrent_http_gen (urls : list string) :
  lazy (concurrent_http_gen loop client urls).
Proof. apply lazy_gbind; [apply lazy_as_completed|]. intros done. apply lazy_drain. Qed.

Lemma lazy_batch_http_gen (urls : list string) (batch_size : Z) :
  lazy (batch_http_gen loop client urls batch_size).
Proof.
  apply lazy_gbind; [apply lazy_eval|]. intros starts.
  apply lazy_for_each. intros i.
  apply lazy_gbind; [apply lazy_as_completed|]. intros done. apply lazy_drain.
Qed.

End lazy_generators.

(** X6.  Every generator of the repository is pull-driven: whatever the
    client, the event loop, the input and the batch size, a consumer that
    takes [k] values and leaves has received exactly the first [k] values of
    the full run (all of them when the run yields fewer), and the
    generator has started for it no operation that the full run does not
    start, in the same order. *)
Theorem generators_are_lazy (loop : EventLoop) (client : AsyncClient)
    (urls : list string) (batch_size n : Z) (k : nat) (t0 : time) :
  served_prefix k t0 (sequential_gen n)
  ∧ served_prefix k t0 (concurrent_gen loop n)
  ∧ served_prefix k t0 (count_async n)
  ∧ served_prefix k t0 (sequential_http_gen client urls)
  ∧ served_prefix k t0 (concurrent_http_gen loop client urls)
  ∧ served_prefix k t0 (batch_http_gen loop client urls batch_size).
Proof.
  split_and!; apply lazy_served.
  - apply lazy_sequential_gen.
  - apply lazy_concurrent_gen.
  - apply lazy_count_async.
  - apply lazy_sequential_http_gen.
  - apply lazy_concurrent_http_gen.
  - apply lazy_batch_http_gen.
Qed.


(** X2.  [count_async(n)] yields "Count: 1" up to "Count: n" in that order,
    one every 0.1 s, and ends 0.1 s times [n] after the consumer arrives. *)
Theorem count_async_timeline (n : Z) (t0 : time) :
  ∃ f, consume None (count_async n) t0 = (Go tt, f)
       ∧ emitted f
         = (λ j : nat, Build_Event (t0 + 100 * (j + 1)) j
                         ("Count: " +:+ pretty (Z.of_nat j + 1)%Z))
             <$> seq 0 (Z.to_nat n)
       ∧ now f = t0 + 100 * Z.to_nat n.
Proof.
  assert (relay_log t0 (count_calls n)
          = ticking_task t0 100 (λ j, "Count: " +:+ pretty (Z.of_nat j + 1)%Z)
              <$> seq 0 (Z.to_nat n)) as Hlog.
  { rewrite count_calls_seq.
    by apply (relay_log_ticking 100 _
                (λ j, (sleep 100 ;; ret ("Count: " +:+ pretty (Z.of_nat j + 1)%Z))%coro)). }
  eexists. split.
  { unfold consume. rewrite count_async_relay.
    apply relay_all; [|done]. cbn [start now]. rewrite Hlog. apply ticking_returns. }
  cbn [start now emitted ops app]. rewrite Hlog. split.
  - by apply on_settle_fmap.
  - apply last_settle_ticking.
Qed.

(** X3.  [sequential_http_gen] yields one outcome per URL, in the order of
    the input: the outcome at place [j] is the one for item [j], it carries
    the URL at place [j], it is the dictionary made from the request of
    that item, and it is handed over the instant that item's operation
    settles. *)
Theorem sequential_http_in_order (client : AsyncClient) (urls : list string) (t0 : time) :
  ∃ f, consume None (sequential_http_gen client urls) t0 = (Go tt, f)
       ∧ length (emitted f) = length urls
       ∧ ev_item <$> emitted f = seq 0 (length urls)
       ∧ (λ e, ev_value e !! "url") <$> emitted f = (λ url, Some (VStr url)) <$> urls
       ∧ ∀ j url, urls !! j = Some url →
           ∃ e o, emitted f !! j = Some e ∧ ops f !! j = Some o
                  ∧ ev_item e = j ∧ op_item o = j
                  ∧ ev_time e = op_settle o
                  ∧ ev_value e
                    = reply_dict url (request_of client (op_launch o) (100 * (j mod 3)) url).
Proof.
  eexists. split; [apply sequential_http_run|]. cbn [emitted ops].
  assert (length (on_settle (relay_log t0 (sequential_calls client urls))) = length urls)
    as Hlen.
  { rewrite on_settle_length by apply sequential_log_returns.
    by rewrite relay_log_length, sequential_calls_length. }
  split_and!; [done| | |].
  - apply list_eq. intros j. rewrite list_lookup_fmap.
    destruct (urls !! j) as [url|] eqn:Hj.
    + destruct (sequential_http_place client urls t0 j url Hj) as (tj & _ & ->).
      simpl. symmetry. apply lookup_seq. split; [done|]. by eapply lookup_lt_Some.
    + apply lookup_ge_None in Hj. rewrite lookup_seq_ge by done.
      rewrite (proj2 (lookup_ge_None _ j)); [done|lia].
  - apply list_eq. intros j. rewrite !list_lookup_fmap.
    destruct (urls !! j) as [url|] eqn:Hj.
    + destruct (sequential_http_place client urls t0 j url Hj) as (tj & _ & ->).
      simpl. by rewrite reply_dict_url.
    + apply lookup_ge_None in Hj.
      rewrite (proj2 (lookup_ge_None _ j)); [done|lia].
  - intros j url Hj.
    destruct (sequential_http_place client urls t0 j url Hj) as (tj & Hlog & Hev).
    eexists _, _. split; [exact Hev|]. split; [by rewrite list_lookup_fmap, Hlog|].
    by split_and!.
Qed.

Lemma sequential_http_in_order_witness :
  ∃ f, consume None (sequential_http_gen sample_client ["A"; "down"]) 0 = (Go tt, f)
       ∧ ∃ e o, emitted f !! 1 = Some e ∧ ops f !! 1 = Some o
                ∧ ev_item e = 1 ∧ ev_time e = op_settle o.
Proof.
  destruct (sequential_http_in_order sample_client ["A"; "down"] 0)
    as (f & Hrun & _ & _ & _ & Hplace).
  exists f. split; [exact Hrun|].
  destruct (Hplace 1 "down") as (e & o & He & Ho & Hi & _ & Ht & _); [reflexivity|].
  exists e, o. repeat split; assumption.
Defined.


(** X5.  When the consumer of [sequential_http_gen] leaves after [k]
    outcomes, with [k] between one and the number of URLs, it has received
    the first [k] outcomes of the full run; only the first [k] operations
    of the full run were ever started, and none of them is running at the
    instant the consumer leaves: no request is made for the items that
    were not asked for. *)
Theorem sequential_http_abandoned (client : AsyncClient) (urls : list string)
    (t0 : time) (k : nat) :
  0 < k ≤ length urls →
  ∃ f_all f,
    consume None (sequential_http_gen client urls) t0 = (Go tt, f_all)
    ∧ consume (Some k) (sequential_http_gen client urls) t0 = (Halt Suspend, f)
    ∧ emitted f = take k (emitted f_all)
    ∧ ops f = take k (ops f_all)
    ∧ op_item <$> ops f = seq 0 k
    ∧ in_flight (ops f) (now f) = 0.
Proof.
  intros [Hpos Hk]. destruct k as [|k]; [lia|].
  eexists _, _. split; [apply sequential_http_run|].
  split; [apply sequential_http_leave; lia|]. cbn [emitted ops now].
  split_and!; [done|by rewrite fmap_take| |].
  - rewrite <- list_fmap_compose, fmap_take, relay_log_items.
    unfold sequential_calls. rewrite <- list_fmap_compose.
    rewrite (list_fmap_ext _ fst (enumerate urls)) by by intros _ [??] _.
    rewrite enumerate_fst. apply list_eq. intros j.
    destruct (decide (j < S k)).
    + rewrite lookup_take_lt by done. rewrite !lookup_seq_lt; [done|lia..].
    + rewrite lookup_take_ge by lia. by rewrite lookup_seq_ge by lia.
  - apply chained_idle. rewrite fmap_take. apply chained_take.
    apply relay_log_chained, sequential_calls_forward.
Qed.

Lemma sequential_http_abandoned_witness :
  ∃ f, consume (Some 2) (sequential_http_gen sample_client ["A"; "down"; "B"]) 0
         = (Halt Suspend, f)
       ∧ op_item <$> ops f = [0; 1].
Proof.
  destruct (sequential_http_abandoned sample_client ["A"; "down"; "B"] 0 2)
    as (f_all & f & _ & Hrun & _ & _ & Hitems & _); [simpl; lia|].
  exists f. split; [exact Hrun|exact Hitems].
Defined.



(** X8.  For every [n], iterating [sequential_gen(n)] to the end takes [n]
    times as long as iterating [concurrent_gen(n)] to the end: 0.1 s times
    [n] against 0.1 s (and no time at all for both when [n] is below
    one). *)
Theorem sequential_takes_n_times_concurrent (loop : EventLoop) (n : Z) (t0 : time) :
  ∃ fs fc,
    consume None (sequential_gen n) t0 = (Go tt, fs)
    ∧ consume None (concurrent_gen loop n) t0 = (Go tt, fc)
    ∧ now fs - t0 = 100 * Z.to_nat n
    ∧ now fc - t0 = (if decide (1 ≤ n)%Z then 100 else 0)
    ∧ now fs - t0 = Z.to_nat n * (now fc - t0).
Proof.
  eexists _, _. split; [apply sequential_gen_run|].
  split; [apply concurrent_gen_run|]. cbn [now].
  destruct (decide (1 ≤ n)%Z) as [Hn|Hn].
  - rewrite concurrent_gen_clock by done. split_and!; lia.
  - rewrite slow_tasks_explicit. replace (Z.to_nat n) with 0 in * by lia.
    simpl. split_and!; lia.
Qed.



(** X10.  With a client whose latency for a URL does not depend on the
    instant it is asked, iterating [concurrent_http_gen] to the end never
    takes longer than iterating [sequential_http_gen] over the same URLs to
    the end. *)
Theorem concurrent_no_slower_than_sequential (loop : EventLoop) (client : AsyncClient)
    (urls : list string) (t0 : time) :
  steady client →
  ∃ fs fc,
    consume None (sequential_http_gen client urls) t0 = (Go tt, fs)
    ∧ consume None (concurrent_http_gen loop client urls) t0 = (Go tt, fc)
    ∧ now fc ≤ now fs.
Proof.
  intros Hst. eexists _, _. split; [apply sequential_http_run|].
  split; [apply concurrent_http_run|]. cbn [now].
  assert (chained t0 (task_op <$> relay_log t0 (sequential_calls client urls))) as Hch
    by apply relay_log_chained, sequential_calls_forward.
  apply clock_after_bound; [by apply last_settle_later|].
  rewrite completion_order_perm. apply Forall_lookup. intros j tk Hj.
  apply concurrent_tasks_lookup in Hj as (url & Hurl & ->).
  destruct (sequential_http_place client urls t0 j url Hurl) as (tj & Hlog & _).
  pose proof (chained_settled t0 _ Hch) as Hsettled.
  rewrite Forall_lookup in Hsettled. specialize (Hsettled j _ Hlog).
  pose proof (chained_later t0 _ Hch) as Hlater.
  rewrite Forall_lookup in Hlater.
  specialize (Hlater j (task_op (fetch_task client tj j url (100 * (j mod 3))))).
  rewrite list_lookup_fmap, Hlog in Hlater. specialize (Hlater eq_refl).
  cbn [fetch_task task_op op_launch] in Hlater.
  pose proof (steady_settle client url j (100 * (j mod 3)) t0 tj Hst Hlater). lia.
Qed.

Lemma concurrent_no_slower_than_sequential_witness :
  ∃ fs fc,
    consume None (sequential_http_gen sample_client ["A"; "B"; "C"]) 0 = (Go tt, fs)
    ∧ consume None (concurrent_http_gen fifo_loop sample_client ["A"; "B"; "C"]) 0
      = (Go tt, fc)
    ∧ now fc ≤ now fs.
Proof.
  apply (concurrent_no_slower_than_sequential fifo_loop sample_client ["A"; "B"; "C"] 0).
  intros url timeout t t'. reflexivity.
Defined.

(** X11.  With a client whose requests all return a response, each of the
    three HTTP generators, iterated to the end, yields as many outcomes as
    there are URLs and every one of them has success true (for the batch
    generator, with a batch size of at least one). *)
Theorem reliable_client_all_success (loop : EventLoop) (client : AsyncClient)
    (urls : list string) (t0 : time) (batch_size : Z) :
  reliable client → (1 ≤ batch_size)%Z →
  (∃ f, consume None (sequential_http_gen client urls) t0 = (Go tt, f)
        ∧ length (emitted f) = length urls
        ∧ Forall (λ e, ev_value e !! "success" = Some (VBool true)) (emitted f))
  ∧ (∃ f, consume None (concurrent_http_gen loop client urls) t0 = (Go tt, f)
          ∧ length (emitted f) = length urls
          ∧ Forall (λ e, ev_value e !! "success" = Some (VBool true)) (emitted f))
  ∧ (∃ f, consume None (batch_http_gen loop client urls batch_size) t0 = (Go tt, f)
          ∧ length (emitted f) = length urls
          ∧ Forall (λ e, ev_value e !! "success" = Some (VBool true)) (emitted f)).
Proof.
  intros Hrel Hsize. split_and!.
  - eexists. split; [apply sequential_http_run|]. cbn [emitted].
    assert (length (on_settle (relay_log t0 (sequential_calls client urls))) = length urls)
      as Hlen.
    { rewrite on_settle_length by apply sequential_log_returns.
      by rewrite relay_log_length, sequential_calls_length. }
    split; [done|]. apply Forall_lookup. intros j e He.
    assert (j < length urls) as Hj by (rewrite <- Hlen; by eapply lookup_lt_Some).
    apply lookup_lt_is_Some in Hj as [url Hurl].
    destruct (sequential_http_place client urls t0 j url Hurl) as (tj & _ & He').
    rewrite He' in He. injection He as <-. simpl. by apply reliable_reply.
  - eexists. split; [apply concurrent_http_run|]. cbn [emitted].
    split; [apply each_item_count|]. apply Forall_forall. intros e He.
    apply round_events in He as (tk & Htk & _ & Hres & _);
      [|rewrite concurrent_tasks_fetch; apply fetch_tasks_returns].
    apply list_elem_of_lookup_1 in Htk as [j Hj].
    apply concurrent_tasks_lookup in Hj as (url & _ & ->).
    cbn [fetch_task task_result] in Hres. injection Hres as <-. by apply reliable_reply.
  - destruct (batch_http_run loop client urls (Z.to_nat batch_size) t0)
      as (f & ts & Hrun & Hinv & Hlen); [lia|].
    rewrite Z2Nat.id in Hrun by lia. exists f. split; [done|].
    pose proof (bi_stamps _ _ _ _ _ _ _ Hinv) as Hst. split.
    + apply Permutation_length in Hst. by rewrite !length_fmap, Hlen in Hst.
    + apply Forall_forall. intros e He.
      assert (event_stamp e ∈ task_stamp <$> ts) as Hin
        by (rewrite <- Hst; by apply list_elem_of_fmap_2).
      apply list_elem_of_fmap in Hin as (tk & Heq & Htk).
      apply list_elem_of_lookup_1 in Htk as [j Hj].
      destruct (bi_tasks _ _ _ _ _ _ _ Hinv j tk Hj) as (url & t & _ & ->).
      unfold event_stamp, task_stamp in Heq. cbn [fetch_task task_result task_op] in Heq.
      injection Heq as _ ->. by apply reliable_reply.
Qed.

Lemma reliable_client_all_success_witness :
  ∃ f, consume None (concurrent_http_gen fifo_loop instant_client ["A"; "B"]) 0 = (Go tt, f)
       ∧ length (emitted f) = 2
       ∧ Forall (λ e, ev_value e !! "success" = Some (VBool true)) (emitted f).
Proof.
  destruct (reliable_client_all_success fifo_loop instant_client ["A"; "B"] 0 2)
    as (_ & H & _); [|lia|exact H].
  intros url timeout t. eexists. reflexivity.
Defined.

(** X12.  When the consumer of [batch_http_gen], with a batch size of at
    least one, leaves after [k] outcomes and [k] is no more than the batch
    size and the number of URLs, only the first batch has been started, all
    of it at the instant the consumer arrived: no item of a later batch is
    ever requested. *)
Theorem batch_abandoned_in_first_batch (loop : EventLoop) (client : AsyncClient)
    (urls : list string) (t0 : time) (batch_size : Z) (k : nat) :
  (1 ≤ batch_size)%Z → 0 < k ≤ Z.to_nat batch_size → k ≤ length urls →
  ∃ f, consume (Some k) (batch_http_gen loop client urls batch_size) t0 = (Halt Suspend, f)
       ∧ length (emitted f) = k
       ∧ op_item <$> ops f = seq 0 (Z.to_nat batch_size `min` length urls)
       ∧ Forall (λ o, op_launch o = t0) (ops f).
Proof.
  intros Hsize [Hpos Hkb] Hkn. destruct k as [|k]; [lia|].
  assert (∃ b, batch_size = Z.of_nat b ∧ 0 < b) as (b & -> & Hb)
    by (exists (Z.to_nat batch_size); lia).
  rewrite Nat2Z.id in *.
  destruct (range_items 0 (Z.of_nat (length urls)) (Z.of_nat b)) as [|i starts] eqn:Hstarts.
  { assert (range_items 0 (Z.of_nat (length urls)) (Z.of_nat b) !! 0 = Some 0%Z) as H0
      by (apply range_items_lookup; lia).
    by rewrite Hstarts in H0. }
  assert (i = Z.of_nat (0 * b)) as ->.
  { assert (range_items 0 (Z.of_nat (length urls)) (Z.of_nat b) !! 0 = Some i) as H0
      by by rewrite Hstarts.
    apply range_items_lookup in H0 as [-> _]; lia. }
  assert (create_task t0
            <$> imap (λ j url, (Z.to_nat (Z.of_nat (0 * b)) + j, fetch_url client url 50))
                  (slice urls (Z.of_nat (0 * b)) (Z.of_nat (0 * b) + Z.of_nat b))
          = fetch_tasks client t0 (0 * b) (λ _, 50) (take b (drop (0 * b) urls)))
    as Htasks by (apply batch_tasks_fetch; lia).
  assert (length (fetch_tasks client t0 (0 * b) (λ _, 50) (take b (drop (0 * b) urls)))
          = b `min` length urls) as Hlen
    by (rewrite fetch_tasks_length, length_take, length_drop; lia).
  eexists. split.
  { unfold consume, batch_http_gen.
    erewrite gbind_go;
      [|unfold eval, range; by destruct (Z.eqb_spec (Z.of_nat b) 0) as [|_]; [lia|]].
    rewrite Hstarts. apply for_each_halt.
    apply (round_abandoned loop _ (start t0 (Some (S k))) k); [|done|].
    - cbn [start now]. rewrite Htasks. apply fetch_tasks_returns.
    - apply (f_equal length) in Htasks. rewrite length_fmap in Htasks.
      rewrite Htasks, Hlen. lia. }
  cbn [start now emitted ops app]. rewrite Htasks. split_and!.
  - rewrite length_take, hand_out_length
      by apply completion_order_returns, fetch_tasks_returns.
    rewrite completion_order_length, Hlen. lia.
  - rewrite <- list_fmap_compose, fetch_tasks_items, length_take, length_drop.
    f_equal. lia.
  - apply Forall_fmap. eapply Forall_impl; [apply fetch_tasks_timing|]. by intros ? [? _].
Qed.

Lemma batch_abandoned_in_first_batch_witness :
  ∃ f, consume (Some 1) (batch_http_gen fifo_loop sample_client ["A"; "B"; "C"] 2) 0
         = (Halt Suspend, f)
       ∧ op_item <$> ops f = [0; 1].
Proof.
  destruct (batch_abandoned_in_first_batch fifo_loop sample_client ["A"; "B"; "C"] 0 2 1)
    as (f & Hrun & _ & Hitems & _); [lia|simpl; lia|simpl; lia|].
  exists f. split; [exact Hrun|exact Hitems].
Defined.

(** X13.  The line [demonstrate_patterns] prints for a result never fails
    on an outcome of [fetch_url]: every key it reads is there.  For a
    response it is the check mark, the URL, the status code and the length;
    for a failure it is the cross, the URL, None and 0.  On a dictionary
    without the key success the line raises [KeyError]. *)
Theorem report_line_of_outcome (client : AsyncClient) (url : string) (delay t0 : time) :
  (∃ t1 d,
     fetch_url client url delay t0 = (t1, Returns d)
     ∧ report_line d
       = Returns
           match request_of client t0 delay url with
           | Returns response =>
               "  ✅ " +:+ url +:+ " -> " +:+ pretty (status_code response) +:+ " ("
               +:+ pretty (Z.of_nat (String.length (text response))) +:+ " bytes)"
           | Raises _ => "  ❌ " +:+ url +:+ " -> None (0 bytes)"
           end)
  ∧ ∀ d : dict, d !! "success" = None → report_line d = Raises (KeyError "success").
Proof.
  split.
  - eexists _, _. split; [apply fetch_url_run|].
    by destruct (request_of client t0 delay url).
  - intros d Hd. unfold report_line, getitem. by rewrite Hd.
Qed.

Lemma report_line_of_outcome_witness :
  report_line ({[ "url" := VStr "A" ]} : dict) = Raises (KeyError "success").
Proof.
  destruct (report_line_of_outcome sample_client "A" 0 0) as [_ Hmissing].
  apply Hmissing. reflexivity.
Defined.
